(** * Ring buffer between a UART receive interrupt and its reader

    A shallow embedding of [ring_buffer.c]: the ring buffer with its two
    free-running cursors, its initialisation, [ring_buffer_put],
    [ring_buffer_get] and the reader [uart_getchar]; then the interrupt
    routine [UART_READ_interrupt], the writer [uart_putchar] and [main].

    Conventions of the embedding.
    - [unsigned int] is a [Z] in [0, 2^UINT_BITS); every operation that can
      leave that range in C is followed by [uint], the reduction modulo
      [2^UINT_BITS].  The width is a parameter of the platform.
    - [int] results (0, -1) are plain [Z].
    - A byte in memory is a [Z] in [0, 256).  Plain [char] is signed or
      unsigned according to the platform; [char_val] reads a byte as a
      [char].
    - Pointers are addresses in [Z], [NULL] is 0.  Memory is a finite map
      from the addresses inside live objects to bytes.  A one-byte [memcpy]
      to or from an address outside that map has no defined behaviour: the
      functions that touch memory return [None] there.
    - The [printf] calls under [DEBUG_FLAG] write to the terminal only and
      are left out.  Calls run one after the other: an interrupt in the
      middle of a call is not part of this model. *)

From stdpp Require Import base tactics option list list_numbers gmap.
From Stdlib Require Import ZArith Lia Znumtheory.

Local Open Scope Z_scope.

(** ** Platform *)

Class Platform := {
  UINT_BITS : positive;   (* width of [unsigned int] *)
  CHAR_SIGNED : bool      (* is plain [char] a signed type? *)
}.

(** The usual 32-bit [unsigned int] with signed [char] (x86, x86-64). *)
Definition ilp32 : Platform := {| UINT_BITS := 32; CHAR_SIGNED := true |}.
(** 32-bit [unsigned int] with unsigned [char] (the ARM EABI). *)
Definition arm_eabi : Platform := {| UINT_BITS := 32; CHAR_SIGNED := false |}.
(** A narrowed 8-bit cursor, to watch the cursors wrap on short runs. *)
Definition narrow8 : Platform := {| UINT_BITS := 8; CHAR_SIGNED := true |}.

(** ** Data *)

Definition NULL : Z := 0.

(** [struct ringbuffer_attribute]; its field [n_elem] is [attr_n_elem] here,
    the name [n_elem] being taken by [struct ring_buffer]. *)
Record ringbuffer_attribute := mk_attr {
  attr_n_elem : Z;
  buffer : Z
}.

Record ring_buffer := mk_rb {
  n_elem : Z;
  buf : Z;
  head : Z;
  tail : Z
}.

(** The file-scope [ringbuffer] and the memory its [buf] points into. *)
Record machine := mk_machine {
  ringbuffer : ring_buffer;
  memory : gmap Z Z
}.

(** What the consumer and the producer may ask of the buffer.  [Get c]
    carries the byte held by the caller's variable before the call. *)
Inductive op :=
| Put (data : Z)
| Get (c : Z).

(** What a call answered: the [int] result and, for a get, the byte held by
    the caller's variable after the call. *)
Inductive outcome :=
| PutRet (err : Z)
| GetRet (err : Z) (c : Z).

Section Code.
Context {P : Platform}.

Definition UINT_MOD : Z := 2 ^ Z.pos UINT_BITS.

(** Conversion to [unsigned int]. *)
Definition uint (z : Z) : Z := z mod UINT_MOD.

(** Reading a byte of memory as a plain [char]. *)
Definition char_val (b : Z) : Z :=
  if CHAR_SIGNED then (if b <? 128 then b else b - 256) else b.

(** The byte that represents the [char] value [v]. *)
Definition char_repr (v : Z) : Z := v mod 256.

(** ** Functions of ring_buffer.c *)

Definition ring_buffer_full (rbp : ring_buffer) : Z :=
  if uint (head rbp - tail rbp) =? n_elem rbp then 1 else 0.

Definition ring_buffer_empty (rbp : ring_buffer) : Z :=
  if uint (head rbp - tail rbp) =? 0 then 1 else 0.

Definition ring_buffer_init (attr : option ringbuffer_attribute) (m : machine)
  : Z * machine :=
  match attr with
  | None => (-1, m)
  | Some a =>
      if buffer a =? NULL then (-1, m)
      else if Z.land (uint (attr_n_elem a - 1)) (attr_n_elem a) =? 0 then
        (0, {| ringbuffer := {| n_elem := attr_n_elem a; buf := buffer a;
                                head := 0; tail := 0 |};
               memory := memory m |})
      else (-1, m)
  end.

(** [data] is the byte read through the pointer argument. *)
Definition ring_buffer_put (data : Z) (m : machine) : option (Z * machine) :=
  let rb := ringbuffer m in
  if ring_buffer_full rb =? 0 then
    let offset := Z.land (head rb) (uint (n_elem rb - 1)) in
    match memory m !! (buf rb + offset) with
    | None => None
    | Some _ =>
        Some (0, {| ringbuffer := {| n_elem := n_elem rb; buf := buf rb;
                                     head := uint (head rb + 1);
                                     tail := tail rb |};
                    memory := <[buf rb + offset := data]> (memory m) |})
    end
  else Some (-1, m).

(** [c] is the byte held by the object the pointer argument designates; the
    second component of the result is the byte it holds afterwards. *)
Definition ring_buffer_get (c : Z) (m : machine) : option (Z * Z * machine) :=
  let rb := ringbuffer m in
  if ring_buffer_empty rb =? 0 then
    let offset := Z.land (tail rb) (uint (n_elem rb - 1)) in
    match memory m !! (buf rb + offset) with
    | None => None
    | Some b =>
        Some (0, b, {| ringbuffer := {| n_elem := n_elem rb; buf := buf rb;
                                        head := head rb;
                                        tail := uint (tail rb + 1) |};
                       memory := memory m |})
    end
  else Some (-1, c, m).

Definition uart_getchar (m : machine) : option (Z * machine) :=
  let retval := -1 in
  let c := char_repr (-1) in
  match ring_buffer_get c m with
  | None => None
  | Some (err, c', m') =>
      if err =? 0 then Some (char_val c', m') else Some (retval, m')
  end.

(** ** Runs of calls *)

Fixpoint run (ops : list op) (m : machine) : option (list outcome * machine) :=
  match ops with
  | [] => Some ([], m)
  | Put data :: ops' =>
      match ring_buffer_put data m with
      | None => None
      | Some (err, m') =>
          match run ops' m' with
          | None => None
          | Some (tr, m'') => Some (PutRet err :: tr, m'')
          end
      end
  | Get c :: ops' =>
      match ring_buffer_get c m with
      | None => None
      | Some (err, c', m') =>
          match run ops' m' with
          | None => None
          | Some (tr, m'') => Some (GetRet err c' :: tr, m'')
          end
      end
  end.

(** ** Notions for the proofs *)

Definition is_uint (z : Z) : Prop := 0 ≤ z < UINT_MOD.

(** The distance of the cursors, as the two tests compute it. *)
Definition sub_cursors (rbp : ring_buffer) : Z := uint (head rbp - tail rbp).

(** The slot a cursor selects, as put and get compute it. *)
Definition slot (rbp : ring_buffer) (cursor : Z) : Z :=
  Z.land cursor (uint (n_elem rbp - 1)).

(** [n] is a power of two that an [unsigned int] can hold. *)
Definition pow2 (n : Z) : Prop := ∃ k, 0 ≤ k < Z.pos UINT_BITS ∧ n = 2 ^ k.

(** The [n] bytes from address [p] on lie inside a live object. *)
Definition allocated (mem : gmap Z Z) (p n : Z) : Prop :=
  ∀ i, 0 ≤ i < n → is_Some (mem !! (p + i)).

(** The states the program can be in once [ring_buffer_init] has succeeded
    on an attribute whose buffer has room for [n_elem] bytes. *)
Inductive initialized : machine → Prop :=
| initialized_init attr m0 m :
    is_uint (attr_n_elem attr) →
    allocated (memory m0) (buffer attr) (attr_n_elem attr) →
    ring_buffer_init (Some attr) m0 = (0, m) →
    initialized m
| initialized_put data m err m' :
    initialized m →
    ring_buffer_put data m = Some (err, m') →
    initialized m'
| initialized_get c m err c' m' :
    initialized m →
    ring_buffer_get c m = Some (err, c', m') →
    initialized m'.

Record rb_inv (m : machine) : Prop := mk_rb_inv {
  inv_capacity : n_elem (ringbuffer m) = 0 ∨ pow2 (n_elem (ringbuffer m));
  inv_head : is_uint (head (ringbuffer m));
  inv_tail : is_uint (tail (ringbuffer m));
  inv_fill : sub_cursors (ringbuffer m) ≤ n_elem (ringbuffer m);
  inv_storage :
    allocated (memory m) (buf (ringbuffer m)) (n_elem (ringbuffer m))
}.

(** The byte in the slot of a cursor. *)
Definition byte_at (m : machine) (cursor : Z) : Z :=
  default 0 (memory m !! (buf (ringbuffer m) + slot (ringbuffer m) cursor)).

(** The bytes put and not yet got, oldest first: the slots of the cursors
    [tail], [tail + 1], ... up to [head], each as an [unsigned int]. *)
Definition contents (m : machine) : list Z :=
  (λ i, byte_at m (uint (tail (ringbuffer m) + i)))
    <$> seqZ 0 (sub_cursors (ringbuffer m)).

End Code.

(** Successful puts and gets of a trace. *)
Fixpoint puts_ok (tr : list outcome) : Z :=
  match tr with
  | [] => 0
  | PutRet err :: tr' => (if err =? 0 then 1 else 0) + puts_ok tr'
  | GetRet _ _ :: tr' => puts_ok tr'
  end.

Fixpoint gets_ok (tr : list outcome) : Z :=
  match tr with
  | [] => 0
  | PutRet _ :: tr' => gets_ok tr'
  | GetRet err _ :: tr' => (if err =? 0 then 1 else 0) + gets_ok tr'
  end.

(** A block of [n] zero bytes at address [p], as [static uchar
    RingBufferMemory[RING_BUFFER_SIZE]] is at program start. *)
Definition zeroed (p n : Z) : gmap Z Z :=
  list_to_map ((λ i, (p + i, 0)) <$> seqZ 0 n).

(** Program start: the static [ringbuffer] is all zero. *)
Definition startup (mem : gmap Z Z) : machine :=
  {| ringbuffer := {| n_elem := 0; buf := NULL; head := 0; tail := 0 |};
     memory := mem |}.

(** The demo of [main]: capacity [RING_BUFFER_SIZE] = 8. *)
Definition RING_BUFFER_SIZE : Z := 8.
Definition RingBufferMemory : Z := 4096.
Definition demo_attr : ringbuffer_attribute :=
  {| attr_n_elem := RING_BUFFER_SIZE; buffer := RingBufferMemory |}.
Definition demo_start : machine :=
  startup (zeroed RingBufferMemory RING_BUFFER_SIZE).

(** The machine once [main] has initialised the buffer. *)
Definition demo_ready : machine :=
  {| ringbuffer := {| n_elem := 8; buf := 4096; head := 0; tail := 0 |};
     memory := zeroed 4096 8 |}.

(** The demo buffer holding the single byte 65, put at slot 0. *)
Definition demo_A : machine :=
  {| ringbuffer := {| n_elem := 8; buf := 4096; head := 1; tail := 0 |};
     memory := <[4096 := 65]> (zeroed 4096 8) |}.

(** The demo buffer once that byte has been got again. *)
Definition demo_drained : machine :=
  {| ringbuffer := {| n_elem := 8; buf := 4096; head := 1; tail := 1 |};
     memory := <[4096 := 65]> (zeroed 4096 8) |}.

(** The demo buffer filled with eight zero bytes. *)
Definition demo_full : machine :=
  {| ringbuffer := {| n_elem := 8; buf := 4096; head := 8; tail := 0 |};
     memory := zeroed 4096 8 |}.

(** The demo buffer holding the single byte 0xFF. *)
Definition demo_FF : machine :=
  {| ringbuffer := {| n_elem := 8; buf := 4096; head := 1; tail := 0 |};
     memory := <[4096 := 255]> (zeroed 4096 8) |}.

(** [n] rounds of one put and one get. *)
Definition cycles (n : nat) : list op := mjoin (replicate n [Put 65; Get 255]).

(** ** The queue of the specification

    What the specification has the buffer be: a first-in first-out queue of
    at most [capacity] bytes.  A put appends unless the queue is full, a get
    removes the oldest byte unless the queue is empty; results are written
    as the C functions write them, 0 on success and -1 otherwise.  The
    buffer of the code is compared with it below. *)
Definition fifo_put (capacity : Z) (data : Z) (q : list Z) : Z * list Z :=
  if Z.of_nat (length q) <? capacity then (0, q ++ [data]) else (-1, q).

Definition fifo_get (c : Z) (q : list Z) : Z * Z * list Z :=
  match q with
  | [] => (-1, c, q)
  | b :: q' => (0, b, q')
  end.

Fixpoint fifo_run (capacity : Z) (ops : list op) (q : list Z)
  : list outcome * list Z :=
  match ops with
  | [] => ([], q)
  | Put data :: ops' =>
      let '(err, q') := fifo_put capacity data q in
      let '(tr, q'') := fifo_run capacity ops' q' in
      (PutRet err :: tr, q'')
  | Get c :: ops' =>
      let '(err, c', q') := fifo_get c q in
      let '(tr, q'') := fifo_run capacity ops' q' in
      (GetRet err c' :: tr, q'')
  end.


(** ** The UART side of ring_buffer.c

    The memory-mapped registers are objects of their own, apart from the
    storage the ring buffer points into.  [UART_READ_ADDR] and
    [UART_WRITE_ADDR] point at [UARTIN] and [UARTOUT] throughout, so a read
    through the first is the value of [UARTIN] and a store through the second
    sets [UARTOUT].  Every store to [UARTOUT] is an event the outside sees:
    [transmitted] lists the bytes stored so far, oldest first. *)

Definition BAUD_H : Z := 1.
Definition BAUD_L : Z := 194.

Record board := mk_board {
  core : machine;
  attr : ringbuffer_attribute;
  ReadInterruptControlFlag : Z;
  WriteInterruptControlFlag : Z;
  UARTIN : Z;
  UARTOUT : Z;
  BAUD0 : Z;
  BAUD1 : Z;
  transmitted : list Z
}.

Definition with_core (m : machine) (b : board) : board :=
  {| core := m; attr := attr b;
     ReadInterruptControlFlag := ReadInterruptControlFlag b;
     WriteInterruptControlFlag := WriteInterruptControlFlag b;
     UARTIN := UARTIN b; UARTOUT := UARTOUT b;
     BAUD0 := BAUD0 b; BAUD1 := BAUD1 b; transmitted := transmitted b |}.


Definition with_read_flag (v : Z) (b : board) : board :=
  {| core := core b; attr := attr b;
     ReadInterruptControlFlag := v;
     WriteInterruptControlFlag := WriteInterruptControlFlag b;
     UARTIN := UARTIN b; UARTOUT := UARTOUT b;
     BAUD0 := BAUD0 b; BAUD1 := BAUD1 b; transmitted := transmitted b |}.

Definition with_write_flag (v : Z) (b : board) : board :=
  {| core := core b; attr := attr b;
     ReadInterruptControlFlag := ReadInterruptControlFlag b;
     WriteInterruptControlFlag := v;
     UARTIN := UARTIN b; UARTOUT := UARTOUT b;
     BAUD0 := BAUD0 b; BAUD1 := BAUD1 b; transmitted := transmitted b |}.

Definition with_UARTIN (v : Z) (b : board) : board :=
  {| core := core b; attr := attr b;
     ReadInterruptControlFlag := ReadInterruptControlFlag b;
     WriteInterruptControlFlag := WriteInterruptControlFlag b;
     UARTIN := v; UARTOUT := UARTOUT b;
     BAUD0 := BAUD0 b; BAUD1 := BAUD1 b; transmitted := transmitted b |}.

(** A store of the byte [v] through [UART_WRITE_ADDR]. *)
Definition store_UARTOUT (v : Z) (b : board) : board :=
  {| core := core b; attr := attr b;
     ReadInterruptControlFlag := ReadInterruptControlFlag b;
     WriteInterruptControlFlag := WriteInterruptControlFlag b;
     UARTIN := UARTIN b; UARTOUT := v;
     BAUD0 := BAUD0 b; BAUD1 := BAUD1 b;
     transmitted := transmitted b ++ [v] |}.


Section Uart.
Context {P : Platform}.

(** The interrupt service routine. *)
Definition UART_READ_interrupt (b : board) : option board :=
  if ReadInterruptControlFlag b =? 0 then Some b
  else
    let b := with_read_flag 0 b in
    match ring_buffer_put (UARTIN b) (core b) with
    | None => None
    | Some (_, m') => Some (with_core m' b)
    end.

(** The wait [while (!WriteInterruptControlFlag);] of [uart_putchar], one
    read of the flag per unit of [fuel].  Nothing else runs during the wait
    in this model, so a flag that reads 0 keeps reading 0; [None] says that
    the wait is not over when the fuel is spent. *)
Fixpoint await_write_ready (fuel : nat) (b : board) : option board :=
  match fuel with
  | O => None
  | S fuel' =>
      if WriteInterruptControlFlag b =? 0 then await_write_ready fuel' b
      else Some b
  end.

(** The value of [(char) i] for an [int] [i]; out of the range of [char] the
    conversion wraps, as the compilers of the platforms above define it. *)
Definition to_char (i : Z) : Z := char_val (i mod 256).

Definition uart_putchar (fuel : nat) (c : Z) (b : board) : option (Z * board) :=
  match await_write_ready fuel b with
  | None => None
  | Some b =>
      let b := store_UARTOUT (char_repr (to_char c)) b in
      let b := with_write_flag 0 b in
      Some (0, b)
  end.

(** The first loop of [main]; [n] is the number of rounds still to run. *)
Fixpoint receive_loop (n : nat) (b : board) : option board :=
  match n with
  | O => Some b
  | S n' =>
      let b := with_UARTIN ((UARTIN b + 1) mod 256) b in
      let b := with_read_flag 1 b in
      match UART_READ_interrupt b with
      | None => None
      | Some b => receive_loop n' b
      end
  end.

(** The second loop of [main]. *)
Fixpoint echo_loop (fuel : nat) (n : nat) (b : board) : option board :=
  match n with
  | O => Some b
  | S n' =>
      match uart_getchar (core b) with
      | None => None
      | Some (value, m') =>
          let b := with_core m' b in
          let value := value + 1 in
          let b := with_write_flag 1 b in
          match uart_putchar fuel value b with
          | None => None
          | Some (_, b) => echo_loop fuel n' b
          end
      end
  end.


End Uart.

(** What a call that is refused answers. *)
Definition refused (o : op) : outcome :=
  match o with
  | Put _ => PutRet (-1)
  | Get c => GetRet (-1) c
  end.

(** The board at program start: every object with static storage is zero. *)
Definition power_on (mem : gmap Z Z) : board :=
  {| core := startup mem;
     attr := {| attr_n_elem := 0; buffer := NULL |};
     ReadInterruptControlFlag := 0; WriteInterruptControlFlag := 0;
     UARTIN := 0; UARTOUT := 0; BAUD0 := 0; BAUD1 := 0; transmitted := [] |}.

(** A board around the initialised demo buffer, transmitter ready. *)
Definition demo_board : board :=
  {| core := demo_ready; attr := demo_attr;
     ReadInterruptControlFlag := 0; WriteInterruptControlFlag := 1;
     UARTIN := 65; UARTOUT := 0; BAUD0 := BAUD_L; BAUD1 := BAUD_H;
     transmitted := [] |}.

(** * Arithmetic of [unsigned int] and of the mask *)

Section Arith.
Context {P : Platform}.

Lemma UINT_MOD_pos : 0 < UINT_MOD.
Proof. unfold UINT_MOD. apply Z.pow_pos_nonneg; lia. Qed.

Lemma uint_range z : is_uint (uint z).
Proof. apply Z.mod_pos_bound, UINT_MOD_pos. Qed.

Lemma uint_small z : is_uint z → uint z = z.
Proof. apply Z.mod_small. Qed.

Lemma uint_0 : uint 0 = 0.
Proof. apply uint_small. pose proof UINT_MOD_pos. unfold is_uint. lia. Qed.

Lemma uint_add_l a b : uint (uint a + b) = uint (a + b).
Proof. apply Zplus_mod_idemp_l. Qed.

Lemma uint_sub_l a b : uint (uint a - b) = uint (a - b).
Proof. apply Zminus_mod_idemp_l. Qed.

Lemma uint_sub_r a b : uint (a - uint b) = uint (a - b).
Proof. apply Zminus_mod_idemp_r. Qed.

Lemma pow2_pos n : pow2 n → 1 ≤ n.
Proof.
  intros (k & Hk & ->).
  assert (0 < 2 ^ k) by (apply Z.pow_pos_nonneg; lia). lia.
Qed.

Lemma pow2_lt_mod k : 0 ≤ k < Z.pos UINT_BITS → 2 ^ k < UINT_MOD.
Proof. intros Hk. apply Z.pow_lt_mono_r; lia. Qed.

Lemma pow2_is_uint n : pow2 n → is_uint n.
Proof.
  intros Hn. pose proof (pow2_pos _ Hn) as H1.
  destruct Hn as (k & Hk & ->).
  pose proof (pow2_lt_mod k Hk). unfold is_uint. lia.
Qed.

Lemma pow2_divides_mod k :
  0 ≤ k < Z.pos UINT_BITS → UINT_MOD = 2 ^ k * 2 ^ (Z.pos UINT_BITS - k).
Proof.
  intros Hk. unfold UINT_MOD.
  rewrite <- Z.pow_add_r by lia. f_equal. lia.
Qed.

(** Reducing to [unsigned int] first does not change the residue modulo a
    capacity: the capacity divides [2 ^ UINT_BITS]. *)
Lemma uint_mod_pow2 z k :
  0 ≤ k < Z.pos UINT_BITS → uint z mod 2 ^ k = z mod 2 ^ k.
Proof.
  intros Hk. unfold uint. rewrite (pow2_divides_mod k Hk).
  apply Z.mod_mod_divide.
  by exists (2 ^ (Z.pos UINT_BITS - k)); rewrite Z.mul_comm.
Qed.

(** The test of [ring_buffer_init]: it lets through the powers of two and
    zero, and nothing else. *)
Lemma pow2_test n :
  is_uint n → (Z.land (uint (n - 1)) n = 0 ↔ n = 0 ∨ pow2 n).
Proof.
  intros Hn. split.
  - intros Hland. destruct (decide (n = 0)) as [|Hn0]; [by left|right].
    unfold is_uint in Hn.
    rewrite uint_small in Hland by (unfold is_uint; lia).
    pose proof (Z.log2_spec n ltac:(lia)) as Hlog.
    pose proof (Z.log2_nonneg n) as Hlog0.
    exists (Z.log2 n). split.
    + split; [done|].
      apply (Z.pow_lt_mono_r_iff 2); [lia| lia |]. fold UINT_MOD. lia.
    + destruct (decide (n = 2 ^ Z.log2 n)) as [|Hne]; [done|exfalso].
      assert (Z.log2 (n - 1) = Z.log2 n) as Hl1.
      { apply Z.log2_unique; [done|]. lia. }
      assert (Z.testbit (Z.land (n - 1) n) (Z.log2 n) = true) as Hbit.
      { rewrite Z.land_spec. rewrite <- Hl1 at 1.
        rewrite Z.bit_log2 by lia. rewrite Z.bit_log2 by lia. done. }
      rewrite Hland, Z.bits_0 in Hbit. done.
  - intros [->|(k & Hk & ->)]; [apply Z.land_0_r|].
    pose proof (pow2_lt_mod k Hk).
    assert (0 < 2 ^ k) by (apply Z.pow_pos_nonneg; lia).
    rewrite uint_small by (unfold is_uint; lia).
    replace (2 ^ k - 1) with (Z.ones k) by (rewrite Z.ones_equiv; lia).
    rewrite Z.land_comm, Z.land_ones by lia.
    apply Z_mod_same_full.
Qed.

(** Masking with [capacity - 1] is the residue modulo the capacity. *)
Lemma mask_pow2 c k :
  0 ≤ k < Z.pos UINT_BITS → Z.land c (uint (2 ^ k - 1)) = c mod 2 ^ k.
Proof.
  intros Hk. pose proof (pow2_lt_mod k Hk).
  assert (0 < 2 ^ k) by (apply Z.pow_pos_nonneg; lia).
  rewrite uint_small by (unfold is_uint; lia).
  replace (2 ^ k - 1) with (Z.ones k) by (rewrite Z.ones_equiv; lia).
  apply Z.land_ones. lia.
Qed.

End Arith.

(** * The invariant of an initialised buffer *)

Section Invariant.
Context {P : Platform}.

Lemma sub_cursors_range rb : is_uint (sub_cursors rb).
Proof. apply uint_range. Qed.

(** Decide the comparison a test of the cursors makes. *)
Local Ltac test_cases rb n :=
  fold (sub_cursors rb);
  destruct (Z.eqb_spec (sub_cursors rb) n); split; (done || lia).

Lemma full_true rb :
  ring_buffer_full rb = 1 ↔ sub_cursors rb = n_elem rb.
Proof. unfold ring_buffer_full. test_cases rb (n_elem rb). Qed.

Lemma full_false rb :
  ring_buffer_full rb = 0 ↔ sub_cursors rb ≠ n_elem rb.
Proof. unfold ring_buffer_full. test_cases rb (n_elem rb). Qed.

Lemma empty_true rb :
  ring_buffer_empty rb = 1 ↔ sub_cursors rb = 0.
Proof. unfold ring_buffer_empty. test_cases rb 0. Qed.

Lemma empty_false rb :
  ring_buffer_empty rb = 0 ↔ sub_cursors rb ≠ 0.
Proof. unfold ring_buffer_empty. test_cases rb 0. Qed.

Lemma full_cases rb : ring_buffer_full rb = 0 ∨ ring_buffer_full rb = 1.
Proof. unfold ring_buffer_full. case_match; auto. Qed.

Lemma empty_cases rb : ring_buffer_empty rb = 0 ∨ ring_buffer_empty rb = 1.
Proof. unfold ring_buffer_empty. case_match; auto. Qed.

(** With a power-of-two capacity the slot is the cursor modulo the
    capacity, hence inside the storage. *)
Lemma slot_mod rb c :
  pow2 (n_elem rb) → slot rb c = c mod n_elem rb.
Proof.
  intros (k & Hk & Hn). unfold slot. rewrite Hn. by apply mask_pow2.
Qed.

Lemma slot_range rb c :
  pow2 (n_elem rb) → 0 ≤ slot rb c < n_elem rb.
Proof.
  intros Hn. rewrite slot_mod by done.
  apply Z.mod_pos_bound. pose proof (pow2_pos _ Hn). lia.
Qed.

(** A buffer that holds fewer bytes than [n_elem], or at least one, has a
    capacity that is a power of two: capacity 0 is full and empty at once. *)
Lemma inv_pow2_of_room m :
  rb_inv m → sub_cursors (ringbuffer m) ≠ n_elem (ringbuffer m) →
  pow2 (n_elem (ringbuffer m)).
Proof.
  intros [[H0|Hp] _ _ Hfill _] Hne; [|done].
  pose proof (sub_cursors_range (ringbuffer m)) as Hr. unfold is_uint in Hr. lia.
Qed.

Lemma inv_pow2_of_data m :
  rb_inv m → sub_cursors (ringbuffer m) ≠ 0 → pow2 (n_elem (ringbuffer m)).
Proof.
  intros [[H0|Hp] _ _ Hfill _] Hne; [|done].
  pose proof (sub_cursors_range (ringbuffer m)) as Hr. unfold is_uint in Hr. lia.
Qed.

(** The cursor distance after a cursor has advanced. *)
Lemma sub_after_put h t n :
  uint (h - t) < n → n < UINT_MOD → uint (uint (h + 1) - t) = uint (h - t) + 1.
Proof.
  intros Hlt Hn. rewrite uint_sub_l.
  replace (h + 1 - t) with (h - t + 1) by lia.
  rewrite <- uint_add_l. apply uint_small.
  pose proof (uint_range (h - t)) as Hr. unfold is_uint in *. lia.
Qed.

Lemma sub_after_get h t :
  uint (h - t) ≠ 0 → uint (h - uint (t + 1)) = uint (h - t) - 1.
Proof.
  intros Hne. rewrite uint_sub_r.
  replace (h - (t + 1)) with (h - t - 1) by lia.
  rewrite <- uint_sub_l. apply uint_small.
  pose proof (uint_range (h - t)) as Hr. unfold is_uint in *. lia.
Qed.

(** What [ring_buffer_put] does in a state that satisfies the invariant. *)
Lemma put_not_full data m :
  rb_inv m → ring_buffer_full (ringbuffer m) = 0 →
  ring_buffer_put data m =
    Some (0, {| ringbuffer :=
                  {| n_elem := n_elem (ringbuffer m); buf := buf (ringbuffer m);
                     head := uint (head (ringbuffer m) + 1);
                     tail := tail (ringbuffer m) |};
                memory := <[buf (ringbuffer m)
                            + slot (ringbuffer m) (head (ringbuffer m)) := data]>
                          (memory m) |}).
Proof.
  intros Hinv Hfull. unfold ring_buffer_put. rewrite Hfull. simpl.
  fold (slot (ringbuffer m) (head (ringbuffer m))).
  apply full_false in Hfull.
  pose proof (inv_pow2_of_room m Hinv Hfull) as Hp.
  destruct (inv_storage m Hinv _ (slot_range _ (head (ringbuffer m)) Hp))
    as [x ->].
  done.
Qed.

Lemma put_full data m :
  ring_buffer_full (ringbuffer m) = 1 → ring_buffer_put data m = Some (-1, m).
Proof. intros Hfull. unfold ring_buffer_put. by rewrite Hfull. Qed.

(** What [ring_buffer_get] does in a state that satisfies the invariant. *)
Lemma get_not_empty c m :
  rb_inv m → ring_buffer_empty (ringbuffer m) = 0 →
  ∃ b, memory m !! (buf (ringbuffer m)
                    + slot (ringbuffer m) (tail (ringbuffer m))) = Some b ∧
  ring_buffer_get c m =
    Some (0, b, {| ringbuffer :=
                     {| n_elem := n_elem (ringbuffer m); buf := buf (ringbuffer m);
                        head := head (ringbuffer m);
                        tail := uint (tail (ringbuffer m) + 1) |};
                   memory := memory m |}).
Proof.
  intros Hinv Hempty. unfold ring_buffer_get. rewrite Hempty. simpl.
  fold (slot (ringbuffer m) (tail (ringbuffer m))).
  apply empty_false in Hempty.
  pose proof (inv_pow2_of_data m Hinv Hempty) as Hp.
  destruct (inv_storage m Hinv _ (slot_range _ (tail (ringbuffer m)) Hp))
    as [x Hx].
  exists x. by rewrite Hx.
Qed.

Lemma get_empty c m :
  ring_buffer_empty (ringbuffer m) = 1 → ring_buffer_get c m = Some (-1, c, m).
Proof. intros Hempty. unfold ring_buffer_get. by rewrite Hempty. Qed.

Lemma allocated_insert mem p n a x :
  allocated mem p n → allocated (<[a:=x]> mem) p n.
Proof.
  intros Ha i Hi. destruct (decide (a = p + i)) as [->|Hne].
  - rewrite lookup_insert_eq. eauto.
  - rewrite lookup_insert_ne by done. by apply Ha.
Qed.

Lemma init_inv attr m0 m :
  is_uint (attr_n_elem attr) →
  allocated (memory m0) (buffer attr) (attr_n_elem attr) →
  ring_buffer_init (Some attr) m0 = (0, m) →
  rb_inv m.
Proof.
  intros Hu Ha. unfold ring_buffer_init.
  destruct (Z.eqb_spec (buffer attr) NULL); [intros [=]|].
  destruct (Z.eqb_spec (Z.land (uint (attr_n_elem attr - 1)) (attr_n_elem attr)) 0)
    as [Hl|]; [|intros [=]].
  intros [= <-]. apply pow2_test in Hl; [|done].
  pose proof UINT_MOD_pos.
  split; simpl; unfold is_uint, sub_cursors; simpl; [done|lia|lia| |done].
  rewrite uint_small by (unfold is_uint; lia).
  destruct Hl as [->|Hp]; [lia|]. pose proof (pow2_pos _ Hp). lia.
Qed.

Lemma put_inv data m err m' :
  rb_inv m → ring_buffer_put data m = Some (err, m') → rb_inv m'.
Proof.
  intros Hinv. destruct (full_cases (ringbuffer m)) as [Hf|Hf].
  - rewrite put_not_full by done. intros [= <- <-].
    apply full_false in Hf.
    pose proof (inv_pow2_of_room m Hinv Hf) as Hp.
    pose proof (pow2_is_uint _ Hp) as Hn. unfold is_uint in Hn.
    destruct Hinv as [Hc Hh Ht Hfill Hs].
    split; simpl; try done.
    + apply uint_range.
    + unfold sub_cursors in *. simpl.
      rewrite (sub_after_put _ _ (n_elem (ringbuffer m))); lia.
    + by apply allocated_insert.
  - rewrite put_full by done. by intros [= <- <-].
Qed.

Lemma get_inv c m err c' m' :
  rb_inv m → ring_buffer_get c m = Some (err, c', m') → rb_inv m'.
Proof.
  intros Hinv. destruct (empty_cases (ringbuffer m)) as [He|He].
  - destruct (get_not_empty c m Hinv He) as (b & _ & ->). intros [= <- <- <-].
    apply empty_false in He.
    destruct Hinv as [Hc Hh Ht Hfill Hs].
    split; simpl; try done.
    + apply uint_range.
    + unfold sub_cursors in *. simpl. rewrite sub_after_get by done. lia.
  - rewrite get_empty by done. by intros [= <- <- <-].
Qed.

Lemma initialized_inv m : initialized m → rb_inv m.
Proof.
  induction 1; eauto using init_inv, put_inv, get_inv.
Qed.

End Invariant.

(** * The buffer as a bounded queue *)

Lemma fifo_put_room capacity data q :
  Z.of_nat (length q) < capacity →
  fifo_put capacity data q = (0, q ++ [data]).
Proof.
  intros Hq. unfold fifo_put.
  by destruct (Z.ltb_spec (Z.of_nat (length q)) capacity); [|lia].
Qed.

Lemma fifo_run_puts capacity bs : ∀ q,
  Z.of_nat (length q + length bs) ≤ capacity →
  fifo_run capacity (Put <$> bs) q
  = (replicate (length bs) (PutRet 0), q ++ bs).
Proof.
  induction bs as [|x bs IH]; intros q Hlen; simpl.
  - by rewrite app_nil_r.
  - simpl in Hlen. rewrite fifo_put_room by lia.
    rewrite IH by (rewrite length_app; simpl; lia).
    by rewrite <- app_assoc.
Qed.

Section Queue.
Context {P : Platform}.

Lemma mod_inj_small a b n :
  0 < n → a mod n = b mod n → - n < a - b < n → a = b.
Proof.
  intros Hn Hmod Hab.
  pose proof (Z.div_mod a n ltac:(lia)) as Ha.
  pose proof (Z.div_mod b n ltac:(lia)) as Hb.
  assert (a - b = n * (a / n - b / n)) as Hd by lia.
  assert (a / n - b / n = 0) as Hq by nia.
  rewrite Hq in Hd. lia.
Qed.

Lemma head_from_tail h t : is_uint h → uint (t + uint (h - t)) = h.
Proof.
  intros Hh. rewrite Z.add_comm, uint_add_l.
  replace (h - t + t) with h by lia. by apply uint_small.
Qed.

Lemma length_contents m :
  Z.of_nat (length (contents m)) = sub_cursors (ringbuffer m).
Proof.
  unfold contents. rewrite length_fmap, length_seqZ.
  pose proof (sub_cursors_range (ringbuffer m)) as Hr. unfold is_uint in Hr. lia.
Qed.

Lemma contents_empty m :
  ring_buffer_empty (ringbuffer m) = 1 → contents m = [].
Proof.
  intros He%empty_true. unfold contents. rewrite He. done.
Qed.

(** Two cursors less than a capacity apart select different slots. *)
Lemma slot_inj rb c i j :
  pow2 (n_elem rb) → 0 ≤ i < n_elem rb → 0 ≤ j < n_elem rb →
  slot rb (uint (c + i)) = slot rb (uint (c + j)) → i = j.
Proof.
  intros Hp Hi Hj. rewrite !slot_mod by done.
  destruct Hp as (k & Hk & Hn). rewrite Hn in *.
  rewrite !uint_mod_pow2 by done. intros Heq.
  assert (c + i = c + j); [|lia].
  apply (mod_inj_small _ _ (2 ^ k)); [lia|done|lia].
Qed.

(** A successful put appends its byte to the contents. *)
Lemma contents_put data m m' :
  rb_inv m → ring_buffer_put data m = Some (0, m') →
  contents m' = contents m ++ [data].
Proof.
  intros Hinv. destruct (full_cases (ringbuffer m)) as [Hf|Hf];
    [|by rewrite put_full].
  rewrite put_not_full by done. intros [= <-].
  apply full_false in Hf.
  pose proof (inv_pow2_of_room m Hinv Hf) as Hp.
  pose proof (pow2_is_uint _ Hp) as Hn. unfold is_uint in Hn.
  pose proof (sub_cursors_range (ringbuffer m)) as Hs. unfold is_uint in Hs.
  destruct Hinv as [_ Hh Ht Hfill _].
  unfold contents, sub_cursors in *. simpl.
  rewrite (sub_after_put _ _ (n_elem (ringbuffer m))) by lia.
  set (s := uint (head (ringbuffer m) - tail (ringbuffer m))) in *.
  rewrite seqZ_app by lia. rewrite fmap_app. f_equal.
  - apply Forall_fmap_ext, Forall_seqZ. intros i Hi.
    unfold byte_at, slot. simpl. fold (slot (ringbuffer m)).
    rewrite lookup_insert_ne; [done|].
    intros Heq. assert (s = i); [|lia].
    apply (slot_inj (ringbuffer m) (tail (ringbuffer m))); [done|lia|lia|].
    unfold s at 1. rewrite head_from_tail by done. unfold slot. lia.
  - rewrite seqZ_cons, seqZ_nil by lia. simpl. f_equal.
    unfold byte_at, slot. simpl. fold (slot (ringbuffer m)).
    rewrite Z.add_0_l. unfold s. rewrite head_from_tail by done.
    by rewrite lookup_insert_eq.
Qed.

(** A successful get removes the oldest byte of the contents and hands it
    over. *)
Lemma contents_get c m b m' :
  rb_inv m → ring_buffer_get c m = Some (0, b, m') →
  contents m = b :: contents m'.
Proof.
  intros Hinv. destruct (empty_cases (ringbuffer m)) as [He|He];
    [|by rewrite get_empty].
  destruct (get_not_empty c m Hinv He) as (x & Hx & ->). intros [= <- <-].
  apply empty_false in He.
  pose proof (sub_cursors_range (ringbuffer m)) as Hs. unfold is_uint in Hs.
  destruct Hinv as [_ Hh Ht Hfill _].
  unfold contents, sub_cursors in *. simpl.
  rewrite sub_after_get by done.
  set (s := uint (head (ringbuffer m) - tail (ringbuffer m))) in *.
  rewrite seqZ_cons by lia. simpl. f_equal.
  - unfold byte_at. rewrite Z.add_0_r, uint_small by done. by rewrite Hx.
  - replace (Z.succ 0) with (1 + 0) by lia.
    rewrite <- fmap_add_seqZ, <- list_fmap_compose.
    replace (Z.pred s) with (s - 1) by lia.
    apply Forall_fmap_ext, Forall_seqZ. intros i Hi. simpl.
    unfold byte_at. simpl. do 3 f_equal.
    by rewrite uint_add_l, Z.add_assoc.
Qed.

(** Every run of calls on an initialised buffer answers as the bounded
    queue does, and the contents follow the queue. *)
Lemma run_refines ops : ∀ m,
  rb_inv m →
  ∃ tr m', run ops m = Some (tr, m') ∧ rb_inv m' ∧
           n_elem (ringbuffer m') = n_elem (ringbuffer m) ∧
           fifo_run (n_elem (ringbuffer m)) ops (contents m) = (tr, contents m').
Proof.
  induction ops as [|[data|c] ops IH]; intros m Hinv; simpl.
  - by exists [], m.
  - unfold fifo_put. rewrite length_contents.
    destruct (full_cases (ringbuffer m)) as [Hf|Hf].
    + pose proof (put_not_full data m Hinv Hf) as Hput.
      pose proof (put_inv _ _ _ _ Hinv Hput) as Hinv'.
      pose proof (contents_put _ _ _ Hinv Hput) as Hc.
      rewrite Hput. apply full_false in Hf.
      destruct (Z.ltb_spec (sub_cursors (ringbuffer m)) (n_elem (ringbuffer m)));
        [|pose proof (inv_fill m Hinv); lia].
      destruct (IH _ Hinv') as (tr & m' & -> & Hinv'' & Hn & Hrun).
      simpl in Hn, Hrun. rewrite <- Hc, Hrun. eauto 10.
    + rewrite put_full by done. apply full_true in Hf.
      destruct (Z.ltb_spec (sub_cursors (ringbuffer m)) (n_elem (ringbuffer m)));
        [lia|].
      destruct (IH _ Hinv) as (tr & m' & -> & Hinv'' & Hn & ->). eauto 10.
  - destruct (empty_cases (ringbuffer m)) as [He|He].
    + destruct (get_not_empty c m Hinv He) as (b & _ & Hget).
      pose proof (get_inv _ _ _ _ _ Hinv Hget) as Hinv'.
      rewrite (contents_get _ _ _ _ Hinv Hget). rewrite Hget. simpl.
      destruct (IH _ Hinv') as (tr & m' & -> & Hinv'' & Hn & Hrun).
      simpl in Hn, Hrun. rewrite Hrun. eauto 10.
    + rewrite get_empty, contents_empty by done. simpl.
      destruct (IH _ Hinv) as (tr & m' & -> & Hinv'' & Hn & Hrun).
      rewrite contents_empty in Hrun by done. rewrite Hrun. eauto 10.
Qed.

(** Full detection: after a successful [ring_buffer_init] with capacity
    [N], [N] puts succeed, the buffer then holds their bytes in order and is
    full, and one more put returns -1 and changes nothing. *)
Lemma full_detection attr m0 m bs b :
  is_uint (attr_n_elem attr) →
  allocated (memory m0) (buffer attr) (attr_n_elem attr) →
  ring_buffer_init (Some attr) m0 = (0, m) →
  Z.of_nat (length bs) = attr_n_elem attr →
  ∃ m', run (Put <$> bs) m = Some (replicate (length bs) (PutRet 0), m') ∧
        contents m' = bs ∧
        ring_buffer_full (ringbuffer m') = 1 ∧
        ring_buffer_put b m' = Some (-1, m').
Proof.
  intros Hu Ha Hinit Hlen.
  pose proof (init_inv _ _ _ Hu Ha Hinit) as Hinv.
  destruct (run_refines (Put <$> bs) m Hinv) as (tr & m' & Hrun & _ & Hn & Hq).
  assert (n_elem (ringbuffer m) = attr_n_elem attr
          ∧ ring_buffer_empty (ringbuffer m) = 1) as [Hcap He].
  { simpl in Hinit. repeat case_match; try done. injection Hinit as <-.
    split; [done|]. apply empty_true. unfold sub_cursors. simpl. apply uint_0. }
  rewrite contents_empty, fifo_run_puts in Hq by (done || simpl; lia).
  injection Hq as <- Hc. exists m'.
  assert (ring_buffer_full (ringbuffer m') = 1) as Hf.
  { apply full_true. rewrite <- length_contents, <- Hc. simpl. lia. }
  split_and!; [done|done|done|]. by apply put_full.
Qed.

End Queue.

(** * Counting the calls of a run *)

Section Counting.
Context {P : Platform}.

(** After a run, each cursor has advanced by the number of successful calls
    on its side, as an [unsigned int], and their distance has changed by the
    difference of the two numbers. *)
Lemma run_counts ops : ∀ m tr m',
  rb_inv m → run ops m = Some (tr, m') →
  n_elem (ringbuffer m') = n_elem (ringbuffer m) ∧
  buf (ringbuffer m') = buf (ringbuffer m) ∧
  head (ringbuffer m') = uint (head (ringbuffer m) + puts_ok tr) ∧
  tail (ringbuffer m') = uint (tail (ringbuffer m) + gets_ok tr) ∧
  sub_cursors (ringbuffer m') =
    sub_cursors (ringbuffer m) + puts_ok tr - gets_ok tr.
Proof.
  induction ops as [|[data|c] ops IH]; intros m tr m' Hinv; simpl.
  - intros [= <- <-]. simpl. rewrite !Z.add_0_r.
    rewrite !uint_small by apply Hinv. repeat split; lia.
  - destruct (full_cases (ringbuffer m)) as [Hf|Hf].
    + pose proof (put_not_full data m Hinv Hf) as Hput.
      pose proof (put_inv _ _ _ _ Hinv Hput) as Hinv'.
      rewrite Hput. destruct (run ops _) as [[tr' m'']|] eqn:Hrun; [|done].
      intros [= <- <-].
      destruct (IH _ _ _ Hinv' Hrun) as (Hn & Hb & Hh & Ht & Hs).
      apply full_false in Hf.
      pose proof (pow2_is_uint _ (inv_pow2_of_room m Hinv Hf)) as Hu.
      pose proof (inv_fill m Hinv) as Hfill. unfold is_uint in Hu.
      unfold sub_cursors in *. simpl in *.
      rewrite (sub_after_put _ _ (n_elem (ringbuffer m))) in Hs by lia.
      rewrite uint_add_l in Hh.
      repeat split; try done; try lia.
      rewrite Hh. f_equal. lia.
    + rewrite put_full by done.
      destruct (run ops _) as [[tr' m'']|] eqn:Hrun; [|done].
      intros [= <- <-].
      destruct (IH _ _ _ Hinv Hrun) as (Hn & Hb & Hh & Ht & Hs). by simpl.
  - destruct (empty_cases (ringbuffer m)) as [He|He].
    + destruct (get_not_empty c m Hinv He) as (b & _ & Hget).
      pose proof (get_inv _ _ _ _ _ Hinv Hget) as Hinv'.
      rewrite Hget. destruct (run ops _) as [[tr' m'']|] eqn:Hrun; [|done].
      intros [= <- <-].
      destruct (IH _ _ _ Hinv' Hrun) as (Hn & Hb & Hh & Ht & Hs).
      apply empty_false in He.
      unfold sub_cursors in *. simpl in *.
      rewrite sub_after_get in Hs by done.
      rewrite uint_add_l in Ht.
      repeat split; try done; try lia.
      rewrite Ht. f_equal. lia.
    + rewrite get_empty by done.
      destruct (run ops _) as [[tr' m'']|] eqn:Hrun; [|done].
      intros [= <- <-].
      destruct (IH _ _ _ Hinv Hrun) as (Hn & Hb & Hh & Ht & Hs). by simpl.
Qed.

Lemma run_initialized ops : ∀ m tr m',
  initialized m → run ops m = Some (tr, m') → initialized m'.
Proof.
  induction ops as [|[data|c] ops IH]; intros m tr m' Hinit; simpl.
  - by intros [= _ <-].
  - destruct (ring_buffer_put data m) as [[err m1]|] eqn:Hput; [|done].
    destruct (run ops m1) as [[tr' m'']|] eqn:Hrun; [|done].
    intros [= _ <-]. eauto using initialized_put.
  - destruct (ring_buffer_get c m) as [[[err c'] m1]|] eqn:Hget; [|done].
    destruct (run ops m1) as [[tr' m'']|] eqn:Hrun; [|done].
    intros [= _ <-]. eauto using initialized_get.
Qed.

End Counting.

(** * Initialisation *)

Section Init.
Context {P : Platform}.

Lemma init_result attr m :
  ring_buffer_init attr m = (-1, m) ∨
  ∃ a, attr = Some a ∧ buffer a ≠ NULL ∧
       Z.land (uint (attr_n_elem a - 1)) (attr_n_elem a) = 0 ∧
       ring_buffer_init attr m =
         (0, {| ringbuffer := {| n_elem := attr_n_elem a; buf := buffer a;
                                 head := 0; tail := 0 |};
                memory := memory m |}).
Proof.
  destruct attr as [a|]; simpl; [|by left].
  destruct (Z.eqb_spec (buffer a) NULL); [by left|].
  destruct (Z.eqb_spec (Z.land (uint (attr_n_elem a - 1)) (attr_n_elem a)) 0);
    [|by left].
  right. by exists a.
Qed.

(** [ring_buffer_init] succeeds exactly on a non-null attribute with a
    non-null buffer whose [n_elem] is a power of two or zero. *)
Lemma ring_buffer_init_succeeds_iff attr m :
  (∀ a, attr = Some a → is_uint (attr_n_elem a)) →
  (ring_buffer_init attr m).1 = 0 ↔
  ∃ a, attr = Some a ∧ buffer a ≠ NULL ∧
       (attr_n_elem a = 0 ∨ pow2 (attr_n_elem a)).
Proof.
  intros Hu. split.
  - destruct (init_result attr m) as [->|(a & -> & Hb & Hl & ->)]; [done|].
    intros _. exists a. repeat split; [done|]. by apply pow2_test; auto.
  - intros (a & -> & Hb & Hn). simpl.
    destruct (Z.eqb_spec (buffer a) NULL); [done|].
    apply pow2_test in Hn; [|auto]. by rewrite Hn.
Qed.

Lemma init_pow2 a m :
  buffer a ≠ NULL → pow2 (attr_n_elem a) →
  ring_buffer_init (Some a) m =
    (0, {| ringbuffer := {| n_elem := attr_n_elem a; buf := buffer a;
                            head := 0; tail := 0 |};
           memory := memory m |}).
Proof.
  intros Hb Hn. simpl.
  destruct (Z.eqb_spec (buffer a) NULL); [done|].
  pose proof (pow2_is_uint _ Hn).
  assert (Z.land (uint (attr_n_elem a - 1)) (attr_n_elem a) = 0) as ->; [|done].
  apply pow2_test; auto.
Qed.

End Init.

(** * The reader *)

Section Reader.
Context {P : Platform}.

(** What [uart_getchar] returns in an initialised state. *)
Lemma uart_getchar_spec m :
  initialized m →
  (ring_buffer_empty (ringbuffer m) = 1 → uart_getchar m = Some (-1, m)) ∧
  (ring_buffer_empty (ringbuffer m) = 0 →
     ∃ b m', ring_buffer_get (char_repr (-1)) m = Some (0, b, m') ∧
             uart_getchar m = Some (char_val b, m')).
Proof.
  intros Hinit%initialized_inv. unfold uart_getchar. split.
  - intros He. by rewrite get_empty.
  - intros He. destruct (get_not_empty (char_repr (-1)) m Hinit He) as (b & _ & Hg).
    rewrite Hg. eauto.
Qed.

(** Read as a [char], a byte is -1 only if [char] is signed and the byte is
    0xFF. *)
Lemma char_val_minus_one b :
  0 ≤ b < 256 → (char_val b = -1 ↔ CHAR_SIGNED = true ∧ b = 255).
Proof.
  intros Hb. unfold char_val. destruct CHAR_SIGNED.
  - destruct (Z.ltb_spec b 128); split; try lia; intros [_ ?]; lia.
  - split; [lia|]. by intros [? _].
Qed.

(** So the result of a successful [uart_getchar] differs from the -1 of an
    empty buffer whenever [char] is unsigned or the byte is not 0xFF. *)
Lemma uart_getchar_told_apart m b m' :
  0 ≤ b < 256 → CHAR_SIGNED = false ∨ b ≠ 255 →
  ring_buffer_get (char_repr (-1)) m = Some (0, b, m') →
  ∃ v, uart_getchar m = Some (v, m') ∧ v ≠ -1.
Proof.
  intros Hb Hok Hg. unfold uart_getchar. rewrite Hg. simpl.
  exists (char_val b). split; [done|].
  rewrite char_val_minus_one by done. intros [Hs ->].
  destruct Hok as [Hu|]; [congruence|done].
Qed.

End Reader.

(** * The demo buffer of [main] *)

Lemma allocated_zeroed p n : allocated (zeroed p n) p n.
Proof.
  intros i Hi. unfold zeroed.
  destruct (list_to_map _ !! (p + i)) eqn:Hl; [eauto|exfalso].
  apply not_elem_of_list_to_map in Hl. apply Hl.
  rewrite <- list_fmap_compose. apply list_elem_of_fmap.
  exists i. split; [done|]. apply elem_of_seqZ. lia.
Qed.

Lemma demo_init :
  ring_buffer_init (P:=ilp32) (Some demo_attr) demo_start = (0, demo_ready).
Proof. reflexivity. Qed.

Lemma demo_attr_uint : is_uint (P:=ilp32) (attr_n_elem demo_attr).
Proof. change (0 ≤ 8 < 2 ^ 32). lia. Qed.

Lemma demo_ready_initialized : initialized (P:=ilp32) demo_ready.
Proof.
  apply (initialized_init demo_attr demo_start).
  - apply demo_attr_uint.
  - apply allocated_zeroed.
  - exact demo_init.
Qed.

Lemma demo_full_initialized : initialized (P:=ilp32) demo_full.
Proof.
  apply (run_initialized (Put <$> replicate 8 0) demo_ready
           (replicate 8 (PutRet 0)) demo_full demo_ready_initialized).
  vm_compute. reflexivity.
Qed.

Lemma demo_A_initialized : initialized (P:=ilp32) demo_A.
Proof.
  apply (initialized_put 65 demo_ready 0 demo_A demo_ready_initialized).
  reflexivity.
Qed.

(** The example scenario of the demo. *)
Example demo_scenario :
  fst <$> run (P:=ilp32)
            [Put 65; Put 66; Get 255; Put 67; Get 255; Get 255; Get 255]
            demo_ready
  = Some [PutRet 0; PutRet 0; GetRet 0 65; PutRet 0; GetRet 0 66; GetRet 0 67;
          GetRet (-1) 255].
Proof. vm_compute. reflexivity. Qed.

(** ** Cursors that wrap *)

(** The demo buffer on the platform with 8-bit cursors. *)
Example narrow8_init :
  ring_buffer_init (P:=narrow8) (Some demo_attr) demo_start = (0, demo_ready).
Proof. reflexivity. Qed.

(** After 300 rounds, 8-bit cursors have wrapped once (300 = 256 + 44), the
    buffer is empty and the last get still handed back the byte just put. *)
Example narrow8_wraps :
  (λ r, (last r.1, ringbuffer r.2)) <$> run (P:=narrow8) (cycles 300) demo_ready
  = Some (Some (GetRet 0 65),
          {| n_elem := 8; buf := 4096; head := 44; tail := 44 |}).
Proof. vm_compute. reflexivity. Qed.

(** Five bytes are put first, so that [head] runs ahead of [tail]; after 252
    more rounds [head] has wrapped to 1 while [tail] is still 252, and the
    distance is still 5.  Three more puts fill the buffer ([head] is then
    4, numerically below [tail]), a fourth is refused, and the gets that
    follow hand the eight bytes back in order. *)
Example narrow8_head_wraps_first :
  (λ r, (ringbuffer r.2, contents (P:=narrow8) r.2))
    <$> run (P:=narrow8) ((Put <$> [1; 2; 3; 4; 5]) ++ cycles 252) demo_ready
  = Some ({| n_elem := 8; buf := 4096; head := 1; tail := 252 |},
          [65; 65; 65; 65; 65])
  ∧ (λ r, (drop 509 r.1, ringbuffer r.2))
      <$> run (P:=narrow8)
            ((Put <$> [1; 2; 3; 4; 5]) ++ cycles 252 ++ (Put <$> [6; 7; 8; 9])
             ++ replicate 9 (Get 0))
            demo_ready
    = Some ([PutRet 0; PutRet 0; PutRet 0; PutRet (-1);
             GetRet 0 65; GetRet 0 65; GetRet 0 65; GetRet 0 65; GetRet 0 65;
             GetRet 0 6; GetRet 0 7; GetRet 0 8; GetRet (-1) 0],
            {| n_elem := 8; buf := 4096; head := 4; tail := 4 |}).
Proof. split; vm_compute; reflexivity. Qed.

(** * Properties of the specification *)

(** C1. In every initialised state in which the buffer is not full,
    [ring_buffer_put] stores the byte at offset [head & (n_elem - 1)] of the
    storage (an offset inside the storage), advances [head] by one modulo
    [2 ^ UINT_BITS] and returns 0; in every state in which the buffer is full
    it returns -1 and the machine (head, tail and storage) is the one it
    started from. *)
Theorem ring_buffer_put_spec `{P : Platform} (data : Z) (m : machine) :
  initialized m →
  let rb := ringbuffer m in
  let offset := Z.land (head rb) (uint (n_elem rb - 1)) in
  (ring_buffer_full rb = 0 →
     0 ≤ offset < n_elem rb ∧
     ring_buffer_put data m =
       Some (0, {| ringbuffer :=
                     {| n_elem := n_elem rb; buf := buf rb;
                        head := (head rb + 1) mod 2 ^ Z.pos UINT_BITS;
                        tail := tail rb |};
                   memory := <[buf rb + offset := data]> (memory m) |}))
  ∧ (ring_buffer_full rb ≠ 0 → ring_buffer_put data m = Some (-1, m)).
Proof.
  intros Hinit%initialized_inv rb offset. split.
  - intros Hf. split.
    + apply (slot_range rb), inv_pow2_of_room; [done|]. by apply full_false.
    + by apply put_not_full.
  - intros Hf. apply put_full. destruct (full_cases rb); [done|done].
Qed.

Lemma ring_buffer_put_spec_witness :
  (initialized (P:=ilp32) demo_ready ∧
   ring_buffer_full (P:=ilp32) (ringbuffer demo_ready) = 0 ∧
   ring_buffer_put (P:=ilp32) 65 demo_ready = Some (0, demo_A))
  ∧ (initialized (P:=ilp32) demo_full ∧
     ring_buffer_full (P:=ilp32) (ringbuffer demo_full) ≠ 0 ∧
     ring_buffer_put (P:=ilp32) 65 demo_full = Some (-1, demo_full)).
Proof.
  split.
  - split; [exact demo_ready_initialized|]. split; [reflexivity|].
    exact (proj2 (proj1 (ring_buffer_put_spec (P:=ilp32) 65 demo_ready
                           demo_ready_initialized) eq_refl)).
  - split; [exact demo_full_initialized|].
    assert (ring_buffer_full (P:=ilp32) (ringbuffer demo_full) ≠ 0) as Hf
      by discriminate.
    split; [exact Hf|].
    exact (proj2 (ring_buffer_put_spec (P:=ilp32) 65 demo_full
                    demo_full_initialized) Hf).
Defined.

(** C2. In every initialised state in which the buffer is not empty,
    [ring_buffer_get] hands over the byte stored at offset
    [tail & (n_elem - 1)], advances [tail] by one modulo [2 ^ UINT_BITS] and
    returns 0.  In every state in which the buffer is empty it returns -1,
    leaves the caller's byte as it was and the machine as it was; this is
    the case right after a successful [ring_buffer_init] and after any run
    with as many successful gets as successful puts. *)
Theorem ring_buffer_get_spec `{P : Platform} :
  (∀ c m, initialized m →
     let rb := ringbuffer m in
     let offset := Z.land (tail rb) (uint (n_elem rb - 1)) in
     ring_buffer_empty rb = 0 →
     ∃ b, 0 ≤ offset < n_elem rb ∧
          memory m !! (buf rb + offset) = Some b ∧
          ring_buffer_get c m =
            Some (0, b, {| ringbuffer :=
                             {| n_elem := n_elem rb; buf := buf rb;
                                head := head rb;
                                tail := (tail rb + 1) mod 2 ^ Z.pos UINT_BITS |};
                           memory := memory m |}))
  ∧ (∀ c m, ring_buffer_empty (ringbuffer m) ≠ 0 →
       ring_buffer_get c m = Some (-1, c, m))
  ∧ (∀ c attr m0 m, ring_buffer_init attr m0 = (0, m) →
       ring_buffer_get c m = Some (-1, c, m))
  ∧ (∀ c attr m0 m ops tr m',
       is_uint (attr_n_elem attr) →
       allocated (memory m0) (buffer attr) (attr_n_elem attr) →
       ring_buffer_init (Some attr) m0 = (0, m) →
       run ops m = Some (tr, m') → puts_ok tr = gets_ok tr →
       ring_buffer_get c m' = Some (-1, c, m')).
Proof.
  repeat split.
  - intros c m Hinit%initialized_inv rb offset He.
    destruct (get_not_empty c m Hinit He) as (b & Hb & Hget).
    exists b. repeat split; try done.
    all: apply (slot_range rb), inv_pow2_of_data; [done|]; by apply empty_false.
  - intros c m He. apply get_empty. by destruct (empty_cases (ringbuffer m)).
  - intros c [a|] m0 m; simpl; [|done].
    repeat case_match; try done. intros [= <-].
    apply get_empty. apply empty_true. unfold sub_cursors. simpl.
    apply uint_0.
  - intros c attr m0 m ops tr m' Hu Ha Hinit Hrun Heq.
    pose proof (init_inv _ _ _ Hu Ha Hinit) as Hinv.
    destruct (run_counts ops m tr m' Hinv Hrun) as (_ & _ & _ & _ & Hs).
    apply get_empty, empty_true. rewrite Hs.
    unfold ring_buffer_init in Hinit. repeat case_match; try done.
    injection Hinit as <-. unfold sub_cursors. simpl.
    rewrite uint_0. lia.
Qed.

Lemma ring_buffer_get_spec_witness :
  (initialized (P:=ilp32) demo_A ∧
   ring_buffer_empty (P:=ilp32) (ringbuffer demo_A) = 0 ∧
   ∃ b, 0 ≤ 0 < 8 ∧ memory demo_A !! 4096 = Some b ∧
        ring_buffer_get (P:=ilp32) 255 demo_A = Some (0, b, demo_drained))
  ∧ (ring_buffer_empty (P:=ilp32) (ringbuffer demo_ready) ≠ 0 ∧
     ring_buffer_get (P:=ilp32) 255 demo_ready = Some (-1, 255, demo_ready))
  ∧ (ring_buffer_init (P:=ilp32) (Some demo_attr) demo_start = (0, demo_ready) ∧
     ring_buffer_get (P:=ilp32) 7 demo_ready = Some (-1, 7, demo_ready))
  ∧ (is_uint (P:=ilp32) (attr_n_elem demo_attr) ∧
     allocated (memory demo_start) (buffer demo_attr) (attr_n_elem demo_attr) ∧
     run (P:=ilp32) [Put 65; Get 255] demo_ready
       = Some ([PutRet 0; GetRet 0 65], demo_drained) ∧
     puts_ok [PutRet 0; GetRet 0 65] = gets_ok [PutRet 0; GetRet 0 65] ∧
     ring_buffer_get (P:=ilp32) 255 demo_drained = Some (-1, 255, demo_drained)).
Proof.
  pose proof (ring_buffer_get_spec (P:=ilp32)) as (Hdata & Hempty & Hfresh & Hdrained).
  split_and!.
  - exact demo_A_initialized.
  - reflexivity.
  - exact (Hdata 255 demo_A demo_A_initialized eq_refl).
  - discriminate.
  - apply Hempty. discriminate.
  - reflexivity.
  - exact (Hfresh 7 (Some demo_attr) demo_start demo_ready eq_refl).
  - exact demo_attr_uint.
  - apply allocated_zeroed.
  - reflexivity.
  - reflexivity.
  - apply (Hdrained 255 demo_attr demo_start demo_ready [Put 65; Get 255]
             [PutRet 0; GetRet 0 65]).
    + exact demo_attr_uint.
    + apply allocated_zeroed.
    + reflexivity.
    + reflexivity.
    + reflexivity.
Defined.

(** C3. First in, first out.  From an empty initialised buffer of capacity
    at least 1, [ring_buffer_put b] followed at once by [ring_buffer_get]
    succeeds twice and hands [b] back; with capacity at least 2, putting [a]
    then [b] and getting twice hands back [a], then [b]. *)
Theorem fifo_order `{P : Platform} :
  (∀ m b c, initialized m →
     ring_buffer_empty (ringbuffer m) = 1 → 1 ≤ n_elem (ringbuffer m) →
     ∃ m1 m2, ring_buffer_put b m = Some (0, m1) ∧
              ring_buffer_get c m1 = Some (0, b, m2))
  ∧ (∀ m a b c1 c2, initialized m →
       ring_buffer_empty (ringbuffer m) = 1 → 2 ≤ n_elem (ringbuffer m) →
       ∃ m1 m2 m3 m4,
         ring_buffer_put a m = Some (0, m1) ∧
         ring_buffer_put b m1 = Some (0, m2) ∧
         ring_buffer_get c1 m2 = Some (0, a, m3) ∧
         ring_buffer_get c2 m3 = Some (0, b, m4)).
Proof.
  split.
  - intros m b c Hinit%initialized_inv He Hn.
    destruct (run_refines [Put b; Get c] m Hinit) as (tr & m' & Hrun & _ & _ & Hq).
    rewrite contents_empty in Hq by done. simpl in Hq, Hrun.
    rewrite fifo_put_room in Hq by (simpl; lia).
    simpl in Hq. injection Hq as <- _.
    destruct (ring_buffer_put b m) as [[e1 m1]|]; [|done].
    destruct (ring_buffer_get c m1) as [[[e2 c'] m2]|] eqn:Hg; [|done].
    injection Hrun as -> -> -> _. eauto.
  - intros m a b c1 c2 Hinit%initialized_inv He Hn.
    destruct (run_refines [Put a; Put b; Get c1; Get c2] m Hinit)
      as (tr & m' & Hrun & _ & _ & Hq).
    rewrite contents_empty in Hq by done. simpl in Hq, Hrun.
    rewrite fifo_put_room in Hq by (simpl; lia).
    rewrite fifo_put_room in Hq by (simpl; lia).
    simpl in Hq. injection Hq as <- _.
    destruct (ring_buffer_put a m) as [[e1 m1]|]; [|done].
    destruct (ring_buffer_put b m1) as [[e2 m2]|] eqn:Hp2; [|done].
    destruct (ring_buffer_get c1 m2) as [[[e3 c1'] m3]|] eqn:Hg1; [|done].
    destruct (ring_buffer_get c2 m3) as [[[e4 c2'] m4]|] eqn:Hg2; [|done].
    injection Hrun as -> -> -> -> -> -> _. eauto 10.
Qed.

Lemma fifo_order_witness :
  initialized (P:=ilp32) demo_ready ∧
  ring_buffer_empty (P:=ilp32) (ringbuffer demo_ready) = 1 ∧
  1 ≤ n_elem (ringbuffer demo_ready) ∧
  2 ≤ n_elem (ringbuffer demo_ready) ∧
  (∃ m1 m2,
     ring_buffer_put (P:=ilp32) 255 demo_ready = Some (0, m1) ∧
     ring_buffer_get (P:=ilp32) 0 m1 = Some (0, 255, m2)) ∧
  (∃ m1 m2 m3 m4,
     ring_buffer_put (P:=ilp32) 65 demo_ready = Some (0, m1) ∧
     ring_buffer_put (P:=ilp32) 66 m1 = Some (0, m2) ∧
     ring_buffer_get (P:=ilp32) 255 m2 = Some (0, 65, m3) ∧
     ring_buffer_get (P:=ilp32) 255 m3 = Some (0, 66, m4)).
Proof.
  split; [exact demo_ready_initialized|]. split; [reflexivity|].
  split; [simpl; lia|]. split; [simpl; lia|]. split.
  - apply (proj1 (fifo_order (P:=ilp32)) demo_ready 255 0).
    + exact demo_ready_initialized.
    + reflexivity.
    + simpl. lia.
  - apply (proj2 (fifo_order (P:=ilp32)) demo_ready 65 66 255 255).
    + exact demo_ready_initialized.
    + reflexivity.
    + simpl. lia.
Defined.

(** C4. After a successful [ring_buffer_init], whatever calls of
    [ring_buffer_put] and [ring_buffer_get] follow, the run completes and in
    the state it reaches the distance [head - tail] modulo [2 ^ UINT_BITS]
    lies between 0 and [n_elem], is the number of successful puts less the
    number of successful gets, is 0 exactly when [ring_buffer_empty] answers
    1 and is [n_elem] exactly when [ring_buffer_full] answers 1.  As the
    sequence of calls is arbitrary, this holds after every single call. *)
Theorem cursor_distance_invariant `{P : Platform} attr m0 m ops :
  is_uint (attr_n_elem attr) →
  allocated (memory m0) (buffer attr) (attr_n_elem attr) →
  ring_buffer_init (Some attr) m0 = (0, m) →
  ∃ tr m', run ops m = Some (tr, m') ∧
    let rb := ringbuffer m' in
    let d := (head rb - tail rb) mod 2 ^ Z.pos UINT_BITS in
    n_elem rb = attr_n_elem attr ∧
    0 ≤ d ≤ n_elem rb ∧
    d = puts_ok tr - gets_ok tr ∧
    (d = 0 ↔ ring_buffer_empty rb = 1) ∧
    (d = n_elem rb ↔ ring_buffer_full rb = 1).
Proof.
  intros Hu Ha Hinit.
  pose proof (init_inv _ _ _ Hu Ha Hinit) as Hinv.
  destruct (run_refines ops m Hinv) as (tr & m' & Hrun & Hinv' & _ & _).
  exists tr, m'. split; [done|].
  destruct (run_counts ops m tr m' Hinv Hrun) as (Hn & _ & _ & _ & Hs).
  destruct (init_result (Some attr) m0) as [Hr|(a & [= <-] & _ & _ & Hr)];
    rewrite Hr in Hinit; [done|]. injection Hinit as <-.
  unfold sub_cursors in Hs. simpl in Hn, Hs. rewrite uint_0 in Hs.
  pose proof (sub_cursors_range (ringbuffer m')) as Hrange.
  pose proof (inv_fill m' Hinv') as Hfill.
  unfold is_uint, sub_cursors, uint, UINT_MOD in *. cbv zeta.
  repeat split; try lia.
  - by intros ?%empty_true.
  - by intros ?%empty_true.
  - by intros ?%full_true.
  - by intros ?%full_true.
Qed.

Lemma cursor_distance_invariant_witness :
  is_uint (P:=ilp32) (attr_n_elem demo_attr) ∧
  allocated (memory demo_start) (buffer demo_attr) (attr_n_elem demo_attr) ∧
  ring_buffer_init (P:=ilp32) (Some demo_attr) demo_start = (0, demo_ready) ∧
  ∃ tr m', run (P:=ilp32) [Put 66; Put 67; Get 255; Get 255; Get 255; Put 68]
             demo_ready = Some (tr, m') ∧
    let rb := ringbuffer m' in
    let d := (head rb - tail rb) mod 2 ^ 32 in
    n_elem rb = 8 ∧ 0 ≤ d ≤ n_elem rb ∧ d = puts_ok tr - gets_ok tr ∧
    (d = 0 ↔ ring_buffer_empty (P:=ilp32) rb = 1) ∧
    (d = n_elem rb ↔ ring_buffer_full (P:=ilp32) rb = 1).
Proof.
  split; [exact demo_attr_uint|]. split; [apply allocated_zeroed|].
  split; [reflexivity|].
  apply (cursor_distance_invariant (P:=ilp32) demo_attr demo_start).
  - exact demo_attr_uint.
  - apply allocated_zeroed.
  - reflexivity.
Defined.

(** C5. For every buffer state [ring_buffer_full] answers 1 exactly when
    [head - tail] modulo [2 ^ UINT_BITS] equals [n_elem] and 0 otherwise,
    and [ring_buffer_empty] answers 1 exactly when that distance is 0 and 0
    otherwise.  Both are functions of the buffer record alone: they return
    no machine, so they change none.  Right after [ring_buffer_init] has
    succeeded on a capacity that is a power of two (hence at least 1) and a
    non-null buffer, [ring_buffer_empty] answers 1 and [ring_buffer_full]
    answers 0. *)
Theorem full_empty_queries `{P : Platform} :
  (∀ rb, (ring_buffer_full rb = 1 ↔
            (head rb - tail rb) mod 2 ^ Z.pos UINT_BITS = n_elem rb) ∧
         (ring_buffer_full rb = 0 ↔
            (head rb - tail rb) mod 2 ^ Z.pos UINT_BITS ≠ n_elem rb))
  ∧ (∀ rb, (ring_buffer_empty rb = 1 ↔
              (head rb - tail rb) mod 2 ^ Z.pos UINT_BITS = 0) ∧
           (ring_buffer_empty rb = 0 ↔
              (head rb - tail rb) mod 2 ^ Z.pos UINT_BITS ≠ 0))
  ∧ (∀ a m0, buffer a ≠ NULL → pow2 (attr_n_elem a) →
       ∃ m, ring_buffer_init (Some a) m0 = (0, m) ∧
            ring_buffer_empty (ringbuffer m) = 1 ∧
            ring_buffer_full (ringbuffer m) = 0).
Proof.
  repeat split.
  - by intros ?%full_true.
  - by intros ?%full_true.
  - by intros ?%full_false.
  - by intros ?%full_false.
  - by intros ?%empty_true.
  - by intros ?%empty_true.
  - by intros ?%empty_false.
  - by intros ?%empty_false.
  - intros a m0 Hb Hn. eexists. split; [by apply init_pow2|]. split.
    + apply empty_true. unfold sub_cursors. simpl. apply uint_0.
    + apply full_false. unfold sub_cursors. simpl. rewrite uint_0.
      pose proof (pow2_pos _ Hn). lia.
Qed.

Lemma full_empty_queries_witness :
  buffer demo_attr ≠ NULL ∧ pow2 (P:=ilp32) (attr_n_elem demo_attr) ∧
  ∃ m, ring_buffer_init (P:=ilp32) (Some demo_attr) demo_start = (0, m) ∧
       ring_buffer_empty (P:=ilp32) (ringbuffer m) = 1 ∧
       ring_buffer_full (P:=ilp32) (ringbuffer m) = 0.
Proof.
  assert (buffer demo_attr ≠ NULL) as Hb by (simpl; unfold RingBufferMemory, NULL; lia).
  assert (pow2 (P:=ilp32) (attr_n_elem demo_attr)) as Hn.
  { exists 3. split; [simpl; lia | reflexivity]. }
  split; [exact Hb|]. split; [exact Hn|].
  exact (proj2 (proj2 (full_empty_queries (P:=ilp32))) demo_attr demo_start Hb Hn).
Defined.

(** C6 (the code at the input where the claim fails).  On every platform and
    from every machine state, [ring_buffer_init] on a non-null buffer with
    [n_elem = 0] returns 0: the test [(n_elem - 1) & n_elem == 0] lets zero
    through, [0 - 1] being all ones as an [unsigned int].  The buffer it sets
    up is full and empty at once, so no put and no get ever succeeds. *)
Theorem ring_buffer_init_accepts_zero `{P : Platform} (m0 : machine) :
  let zero_attr := {| attr_n_elem := 0; buffer := RingBufferMemory |} in
  let m := {| ringbuffer := {| n_elem := 0; buf := RingBufferMemory;
                               head := 0; tail := 0 |};
              memory := memory m0 |} in
  ring_buffer_init (Some zero_attr) m0 = (0, m) ∧
  ring_buffer_full (ringbuffer m) = 1 ∧
  ring_buffer_empty (ringbuffer m) = 1 ∧
  (∀ data, ring_buffer_put data m = Some (-1, m)) ∧
  (∀ c, ring_buffer_get c m = Some (-1, c, m)).
Proof.
  intros zero_attr m.
  assert (ring_buffer_full (ringbuffer m) = 1) as Hf.
  { apply full_true. unfold sub_cursors. simpl. apply uint_0. }
  assert (ring_buffer_empty (ringbuffer m) = 1) as He.
  { apply empty_true. unfold sub_cursors. simpl. apply uint_0. }
  split_and!; [|done|done| |].
  - unfold ring_buffer_init, zero_attr. simpl. by rewrite Z.land_0_r.
  - intros data. by apply put_full.
  - intros c. by apply get_empty.
Qed.

(** The rest of what [ring_buffer_init] is said to do holds: capacity 3 is
    refused, capacity 8 is taken, and success resets both cursors and stores
    the capacity and the buffer. *)
Example ring_buffer_init_3_and_8 :
  (ring_buffer_init (P:=ilp32) (Some {| attr_n_elem := 3; buffer := RingBufferMemory |})
     demo_start).1 = -1 ∧
  ring_buffer_init (P:=ilp32) (Some demo_attr) demo_start = (0, demo_ready).
Proof. split; reflexivity. Qed.

(** C7 (as the claim states it, refuted).  [ring_buffer_init] on capacity 3
    and [ring_buffer_init] on a null buffer return the same -1, and no two
    failing calls of [ring_buffer_init], on any platform, return different
    values. *)
Lemma init_failures_not_told_apart :
  (ring_buffer_init (P:=ilp32)
     (Some {| attr_n_elem := 3; buffer := RingBufferMemory |}) demo_start).1
  = (ring_buffer_init (P:=ilp32)
       (Some {| attr_n_elem := 8; buffer := NULL |}) demo_start).1
  ∧ ¬ ∃ (P : Platform) (attr1 attr2 : option ringbuffer_attribute)
        (m1 m2 : machine),
        (ring_buffer_init attr1 m1).1 ≠ 0 ∧
        (ring_buffer_init attr2 m2).1 ≠ 0 ∧
        (ring_buffer_init attr1 m1).1 ≠ (ring_buffer_init attr2 m2).1.
Proof.
  split; [reflexivity|].
  intros (P & attr1 & attr2 & m1 & m2 & H1 & H2 & Hne).
  destruct (init_result attr1 m1) as [Hr1|(? & _ & _ & _ & Hr1)];
    rewrite Hr1 in *; [|done].
  destruct (init_result attr2 m2) as [Hr2|(? & _ & _ & _ & Hr2)];
    rewrite Hr2 in *; done.
Qed.

(** C7 (amended).  Every operation that fails returns -1, a value different
    from the 0 of success, and leaves the machine (and, for a get, the
    caller's byte) as it was.  [ring_buffer_init] returns this one value for
    a null attribute, for a null buffer and for a capacity it refuses alike. *)
Theorem failures_return_minus_one `{P : Platform} :
  (∀ attr m, (ring_buffer_init attr m).1 = 0 ∨ ring_buffer_init attr m = (-1, m))
  ∧ (∀ m, ring_buffer_init None m = (-1, m))
  ∧ (∀ a m, buffer a = NULL → ring_buffer_init (Some a) m = (-1, m))
  ∧ (∀ a m, is_uint (attr_n_elem a) → attr_n_elem a ≠ 0 →
       ¬ pow2 (attr_n_elem a) → ring_buffer_init (Some a) m = (-1, m))
  ∧ (∀ data m err m', ring_buffer_put data m = Some (err, m') →
       err = 0 ∨ (err = -1 ∧ m' = m))
  ∧ (∀ c m err c' m', ring_buffer_get c m = Some (err, c', m') →
       err = 0 ∨ (err = -1 ∧ c' = c ∧ m' = m))
  ∧ (∀ attr1 attr2 m1 m2,
       (ring_buffer_init attr1 m1).1 ≠ 0 → (ring_buffer_init attr2 m2).1 ≠ 0 →
       (ring_buffer_init attr1 m1).1 = (ring_buffer_init attr2 m2).1).
Proof.
  split_and!; cycle 6.
  { intros attr1 attr2 m1 m2.
    destruct (init_result attr1 m1) as [->|(? & _ & _ & _ & ->)]; [|done].
    destruct (init_result attr2 m2) as [->|(? & _ & _ & _ & ->)]; done. }
  - intros attr m.
    destruct (init_result attr m) as [->|(? & _ & _ & _ & ->)]; auto.
  - done.
  - intros a m Hb. simpl. by rewrite Hb.
  - intros a m Hu H0 Hp.
    destruct (init_result (Some a) m) as [->|(? & [= <-] & _ & Hl & _)]; [done|].
    apply pow2_test in Hl; [|done]. by destruct Hl.
  - intros data m err m'. unfold ring_buffer_put.
    repeat case_match; intros [= <- <-]; auto.
  - intros c m err c' m'. unfold ring_buffer_get.
    repeat case_match; intros [= <- <- <-]; auto.
Qed.

Lemma failures_return_minus_one_witness :
  let a := {| attr_n_elem := 3; buffer := RingBufferMemory |} in
  let a0 := {| attr_n_elem := 8; buffer := NULL |} in
  (is_uint (P:=ilp32) (attr_n_elem a) ∧ attr_n_elem a ≠ 0 ∧
   ¬ pow2 (P:=ilp32) (attr_n_elem a) ∧
   ring_buffer_init (P:=ilp32) (Some a) demo_start = (-1, demo_start))
  ∧ (buffer a0 = NULL ∧
     ring_buffer_init (P:=ilp32) (Some a0) demo_start = (-1, demo_start))
  ∧ (ring_buffer_put (P:=ilp32) 65 demo_ready = Some (0, demo_A) ∧
     ((0 = 0) ∨ (0 = -1 ∧ demo_A = demo_ready)))
  ∧ (ring_buffer_get (P:=ilp32) 255 demo_ready = Some (-1, 255, demo_ready) ∧
     ((-1 = 0) ∨ (-1 = -1 ∧ 255 = 255 ∧ demo_ready = demo_ready)))
  ∧ ((ring_buffer_init (P:=ilp32) (Some a) demo_start).1 ≠ 0 ∧
     (ring_buffer_init (P:=ilp32) (Some a0) demo_ready).1 ≠ 0 ∧
     (ring_buffer_init (P:=ilp32) (Some a) demo_start).1
     = (ring_buffer_init (P:=ilp32) (Some a0) demo_ready).1).
Proof.
  intros a a0.
  pose proof (failures_return_minus_one (P:=ilp32))
    as (_ & _ & Hnull & Hcap & Hput & Hget & Hsame).
  split; [|split; [|split; [|split]]]; cycle 1.
  { split; [reflexivity|]. exact (Hnull a0 demo_start eq_refl). }
  { split; [reflexivity|]. exact (Hput 65 demo_ready 0 demo_A eq_refl). }
  { split; [reflexivity|].
    exact (Hget 255 demo_ready (-1) 255 demo_ready eq_refl). }
  { assert ((ring_buffer_init (P:=ilp32) (Some a) demo_start).1 ≠ 0) as H1
      by discriminate.
    assert ((ring_buffer_init (P:=ilp32) (Some a0) demo_ready).1 ≠ 0) as H2
      by discriminate.
    split; [exact H1|]. split; [exact H2|].
    exact (Hsame (Some a) (Some a0) demo_start demo_ready H1 H2). }
  assert (is_uint (P:=ilp32) (attr_n_elem a)) as Hu by (change (0 ≤ 3 < 2 ^ 32); lia).
  assert (attr_n_elem a ≠ 0) as H0 by (simpl; lia).
  assert (¬ pow2 (P:=ilp32) (attr_n_elem a)) as Hp.
  { intros (k & Hk & Hn). simpl in Hn.
    assert (k = 0 ∨ k = 1 ∨ 2 ≤ k) as [->|[->|Hk2]] by lia; [done|done|].
    assert (2 ^ 2 ≤ 2 ^ k) by (apply Z.pow_le_mono_r; lia). lia. }
  split; [exact Hu|]. split; [exact H0|]. split; [exact Hp|].
  exact (Hcap a demo_start Hu H0 Hp).
Defined.

(** C8. After a successful [ring_buffer_init], for every sequence of calls,
    of any length and so also longer than [2 ^ UINT_BITS]: with the numbers
    of successful puts and gets counted without bound, [head] and [tail] are
    these numbers modulo [2 ^ UINT_BITS]; [ring_buffer_full] answers 1
    exactly when the two numbers differ by the capacity and
    [ring_buffer_empty] exactly when they are equal; the slots
    [head & (n_elem - 1)] and [tail & (n_elem - 1)] are the two numbers
    modulo the capacity; and every call has returned what the bounded
    first-in first-out queue returns, the bytes in the buffer being the
    queue. *)
Theorem wraparound_refines_fifo `{P : Platform} attr m0 m ops :
  is_uint (attr_n_elem attr) →
  allocated (memory m0) (buffer attr) (attr_n_elem attr) →
  ring_buffer_init (Some attr) m0 = (0, m) →
  ∃ tr m', run ops m = Some (tr, m') ∧
    let rb := ringbuffer m' in
    let capacity := attr_n_elem attr in
    head rb = puts_ok tr mod 2 ^ Z.pos UINT_BITS ∧
    tail rb = gets_ok tr mod 2 ^ Z.pos UINT_BITS ∧
    0 ≤ puts_ok tr - gets_ok tr ≤ capacity ∧
    (ring_buffer_full rb = 1 ↔ puts_ok tr - gets_ok tr = capacity) ∧
    (ring_buffer_empty rb = 1 ↔ puts_ok tr - gets_ok tr = 0) ∧
    (1 ≤ capacity →
       0 ≤ Z.land (head rb) (uint (n_elem rb - 1)) < capacity ∧
       Z.land (head rb) (uint (n_elem rb - 1)) = puts_ok tr mod capacity ∧
       Z.land (tail rb) (uint (n_elem rb - 1)) = gets_ok tr mod capacity) ∧
    fifo_run capacity ops [] = (tr, contents m').
Proof.
  intros Hu Ha Hinit.
  pose proof (init_inv _ _ _ Hu Ha Hinit) as Hinv.
  destruct (run_refines ops m Hinv) as (tr & m' & Hrun & Hinv' & _ & Hq).
  exists tr, m'. split; [done|].
  destruct (run_counts ops m tr m' Hinv Hrun) as (Hn & _ & Hh & Ht & Hs).
  destruct (init_result (Some attr) m0) as [Hr|(a & [= <-] & _ & _ & Hr)];
    rewrite Hr in Hinit; [done|]. injection Hinit as <-.
  rewrite contents_empty in Hq
    by (apply empty_true; unfold sub_cursors; simpl; apply uint_0).
  unfold sub_cursors in Hs. simpl in Hn, Hh, Ht, Hs, Hq. rewrite uint_0 in Hs.
  pose proof (inv_fill m' Hinv') as Hfill.
  pose proof (sub_cursors_range (ringbuffer m')) as Hrange. unfold is_uint in Hrange.
  rewrite Z.add_0_l in Hh, Ht.
  cbv zeta. split_and!; try done; try (unfold sub_cursors in *; lia).
  - rewrite full_true. unfold sub_cursors in *. lia.
  - rewrite empty_true. unfold sub_cursors in *. lia.
  - intros Hcap.
    assert (pow2 (n_elem (ringbuffer m'))) as Hp.
    { destruct (inv_capacity m' Hinv'); [lia|done]. }
    fold (slot (ringbuffer m') (head (ringbuffer m'))).
    fold (slot (ringbuffer m') (tail (ringbuffer m'))).
    split; [|split].
    + rewrite <- Hn. by apply slot_range.
    + rewrite slot_mod, Hh by done. destruct Hp as (k & Hk & Hp).
      rewrite <- Hn, Hp. by apply uint_mod_pow2.
    + rewrite slot_mod, Ht by done. destruct Hp as (k & Hk & Hp).
      rewrite <- Hn, Hp. by apply uint_mod_pow2.
Qed.

Lemma wraparound_refines_fifo_witness :
  is_uint (P:=narrow8) (attr_n_elem demo_attr) ∧
  allocated (memory demo_start) (buffer demo_attr) (attr_n_elem demo_attr) ∧
  ring_buffer_init (P:=narrow8) (Some demo_attr) demo_start = (0, demo_ready) ∧
  ∃ tr m', run (P:=narrow8) (cycles 300) demo_ready = Some (tr, m') ∧
    let rb := ringbuffer m' in
    let capacity := attr_n_elem demo_attr in
    head rb = puts_ok tr mod 2 ^ Z.pos (@UINT_BITS narrow8) ∧
    tail rb = gets_ok tr mod 2 ^ Z.pos (@UINT_BITS narrow8) ∧
    0 ≤ puts_ok tr - gets_ok tr ≤ capacity ∧
    (ring_buffer_full (P:=narrow8) rb = 1 ↔ puts_ok tr - gets_ok tr = capacity) ∧
    (ring_buffer_empty (P:=narrow8) rb = 1 ↔ puts_ok tr - gets_ok tr = 0) ∧
    (1 ≤ capacity →
       0 ≤ Z.land (head rb) (uint (P:=narrow8) (n_elem rb - 1)) < capacity ∧
       Z.land (head rb) (uint (P:=narrow8) (n_elem rb - 1))
         = puts_ok tr mod capacity ∧
       Z.land (tail rb) (uint (P:=narrow8) (n_elem rb - 1))
         = gets_ok tr mod capacity) ∧
    fifo_run capacity (cycles 300) [] = (tr, contents (P:=narrow8) m').
Proof.
  assert (is_uint (P:=narrow8) (attr_n_elem demo_attr)) as Hu
    by (change (0 ≤ 8 < 2 ^ 8); lia).
  split; [exact Hu|]. split; [apply allocated_zeroed|].
  split; [reflexivity|].
  apply (wraparound_refines_fifo (P:=narrow8) demo_attr demo_start).
  - exact Hu.
  - apply allocated_zeroed.
  - reflexivity.
Defined.

(** C9 (the code at the input where the claim fails).  With [char] signed,
    once the byte 0xFF has been put into the empty demo buffer, the buffer is
    not empty and [uart_getchar] dequeues the byte (the tail advances), yet
    it returns -1, the very value it returns on the empty buffer. *)
Theorem uart_getchar_0xFF_reads_as_nothing :
  ring_buffer_put (P:=ilp32) 255 demo_ready = Some (0, demo_FF) ∧
  ring_buffer_empty (P:=ilp32) (ringbuffer demo_FF) = 0 ∧
  uart_getchar (P:=ilp32) demo_FF =
    Some (-1, {| ringbuffer := {| n_elem := 8; buf := 4096; head := 1; tail := 1 |};
                 memory := memory demo_FF |}) ∧
  ring_buffer_empty (P:=ilp32) (ringbuffer demo_ready) = 1 ∧
  uart_getchar (P:=ilp32) demo_ready = Some (-1, demo_ready).
Proof. split_and!; reflexivity. Qed.

(** Where [char] is unsigned the same byte comes back as 255. *)
Example uart_getchar_0xFF_unsigned_char :
  fst <$> uart_getchar (P:=arm_eabi) demo_FF = Some 255.
Proof. reflexivity. Qed.

(** C10. A successful [ring_buffer_put] changes [head] and the one byte at
    offset [head & (n_elem - 1)] of the storage: [tail], [n_elem], [buf] and
    the byte at every other address, so at every other offset, are as before.
    A successful [ring_buffer_get] changes [tail] only: [head], [n_elem],
    [buf] and the whole memory, the slot just read included, are as
    before. *)
Theorem success_frames `{P : Platform} :
  (∀ data m m', ring_buffer_put data m = Some (0, m') →
     let rb := ringbuffer m in
     let offset := Z.land (head rb) (uint (n_elem rb - 1)) in
     tail (ringbuffer m') = tail rb ∧
     n_elem (ringbuffer m') = n_elem rb ∧
     buf (ringbuffer m') = buf rb ∧
     head (ringbuffer m') = (head rb + 1) mod 2 ^ Z.pos UINT_BITS ∧
     memory m' !! (buf rb + offset) = Some data ∧
     (∀ a, a ≠ buf rb + offset → memory m' !! a = memory m !! a) ∧
     (∀ j, j ≠ offset → memory m' !! (buf rb + j) = memory m !! (buf rb + j)))
  ∧ (∀ c m b m', ring_buffer_get c m = Some (0, b, m') →
       let rb := ringbuffer m in
       head (ringbuffer m') = head rb ∧
       n_elem (ringbuffer m') = n_elem rb ∧
       buf (ringbuffer m') = buf rb ∧
       tail (ringbuffer m') = (tail rb + 1) mod 2 ^ Z.pos UINT_BITS ∧
       memory m' = memory m).
Proof.
  split.
  - intros data m m'. unfold ring_buffer_put.
    destruct (ring_buffer_full (ringbuffer m) =? 0); [|done].
    destruct (memory m !! _) as [x|]; [|done]. intros [= <-]. simpl.
    split_and!; try done.
    + apply lookup_insert_eq.
    + intros a Ha. by apply lookup_insert_ne.
    + intros j Hj. apply lookup_insert_ne. unfold slot. lia.
  - intros c m b m'. unfold ring_buffer_get.
    destruct (ring_buffer_empty (ringbuffer m) =? 0); [|done].
    destruct (memory m !! _) as [x|]; [|done]. by intros [= <- <-].
Qed.

Lemma success_frames_witness :
  (ring_buffer_put (P:=ilp32) 65 demo_ready = Some (0, demo_A) ∧
   tail (ringbuffer demo_A) = tail (ringbuffer demo_ready) ∧
   n_elem (ringbuffer demo_A) = n_elem (ringbuffer demo_ready) ∧
   buf (ringbuffer demo_A) = buf (ringbuffer demo_ready) ∧
   head (ringbuffer demo_A) = (head (ringbuffer demo_ready) + 1) mod 2 ^ 32 ∧
   memory demo_A !! (4096 + 0) = Some 65 ∧
   (∀ a, a ≠ 4096 + 0 → memory demo_A !! a = memory demo_ready !! a) ∧
   (∀ j, j ≠ 0 → memory demo_A !! (4096 + j) = memory demo_ready !! (4096 + j)))
  ∧ (ring_buffer_get (P:=ilp32) 255 demo_A = Some (0, 65, demo_drained) ∧
     head (ringbuffer demo_drained) = head (ringbuffer demo_A) ∧
     n_elem (ringbuffer demo_drained) = n_elem (ringbuffer demo_A) ∧
     buf (ringbuffer demo_drained) = buf (ringbuffer demo_A) ∧
     tail (ringbuffer demo_drained) = (tail (ringbuffer demo_A) + 1) mod 2 ^ 32 ∧
     memory demo_drained = memory demo_A).
Proof.
  split.
  - split; [reflexivity|].
    exact (proj1 (success_frames (P:=ilp32)) 65 demo_ready demo_A eq_refl).
  - split; [reflexivity|].
    exact (proj2 (success_frames (P:=ilp32)) 255 demo_A 65 demo_drained eq_refl).
Defined.

(** * Further properties of the code *)

(** ** Runs of the queue of the specification *)

Lemma fifo_put_no_room capacity data q :
  capacity ≤ Z.of_nat (length q) → fifo_put capacity data q = (-1, q).
Proof.
  intros Hq. unfold fifo_put.
  by destruct (Z.ltb_spec (Z.of_nat (length q)) capacity); [lia|].
Qed.

Lemma fifo_run_app capacity ops1 : ∀ ops2 q,
  fifo_run capacity (ops1 ++ ops2) q =
    let '(tr1, q1) := fifo_run capacity ops1 q in
    let '(tr2, q2) := fifo_run capacity ops2 q1 in
    (tr1 ++ tr2, q2).
Proof.
  induction ops1 as [|[data|c] ops1 IH]; intros ops2 q; simpl.
  - by destruct (fifo_run capacity ops2 q).
  - destruct (fifo_put capacity data q) as [err q']. rewrite IH.
    destruct (fifo_run capacity ops1 q') as [tr1 q1].
    by destruct (fifo_run capacity ops2 q1).
  - destruct (fifo_get c q) as [[err c'] q']. rewrite IH.
    destruct (fifo_run capacity ops1 q') as [tr1 q1].
    by destruct (fifo_run capacity ops2 q1).
Qed.

(** Puts beyond the room left are refused; the queue keeps its oldest
    bytes. *)
Lemma fifo_run_puts_over capacity bs : ∀ q,
  Z.of_nat (length q) ≤ capacity →
  fifo_run capacity (Put <$> bs) q =
    (replicate (length bs `min` (Z.to_nat capacity - length q)) (PutRet 0)
       ++ replicate (length bs - length bs `min` (Z.to_nat capacity - length q))
            (PutRet (-1)),
     take (Z.to_nat capacity) (q ++ bs)).
Proof.
  induction bs as [|x bs IH]; intros q Hq; simpl.
  - rewrite app_nil_r, take_ge by lia. done.
  - destruct (decide (Z.of_nat (length q) < capacity)) as [Hroom|Hfull].
    + rewrite fifo_put_room by done.
      rewrite IH by (rewrite length_app; simpl; lia).
      rewrite length_app, <- app_assoc. simpl.
      destruct (Z.to_nat capacity - length q)%nat as [|r] eqn:Hr; [lia|].
      by replace (Z.to_nat capacity - (length q + 1))%nat with r by lia.
    + rewrite fifo_put_no_room by lia. rewrite IH by done.
      replace (Z.to_nat capacity - length q)%nat with 0%nat by lia.
      rewrite !Nat.min_0_r, !Nat.sub_0_r. simpl.
      by rewrite !take_app_le by lia.
Qed.

(** Gets hand the queue over from its oldest byte on; once it is empty they
    are refused and leave the caller's byte alone. *)
Lemma fifo_run_gets capacity cs : ∀ q,
  fifo_run capacity (Get <$> cs) q =
    ((GetRet 0 <$> take (length cs) q) ++ (GetRet (-1) <$> drop (length q) cs),
     drop (length cs) q).
Proof.
  induction cs as [|c cs IH]; intros q; simpl.
  - by rewrite drop_nil, drop_0.
  - destruct q as [|x q]; simpl; rewrite IH; simpl.
    + by rewrite take_nil, drop_nil, drop_0.
    + done.
Qed.

Section MoreCore.
Context {P : Platform}.

Lemma length_contents_le m :
  rb_inv m → Z.of_nat (length (contents m)) ≤ n_elem (ringbuffer m).
Proof. intros Hinv. rewrite length_contents. apply Hinv. Qed.

Lemma contents_nil_empty m :
  contents m = [] → ring_buffer_empty (ringbuffer m) = 1.
Proof.
  intros Hc. apply empty_true. rewrite <- length_contents, Hc. done.
Qed.

End MoreCore.

(** X1. From any initialised state, a burst of puts is accepted up to the
    room left and refused from there on: the results are 0 for as many
    bytes as fit and -1 for the rest, and the buffer holds what it held
    followed by the bytes that fitted.  The oldest bytes are kept, the
    newest are lost. *)
Theorem puts_keep_oldest `{P : Platform} (m : machine) (bs : list Z) :
  initialized m →
  let capacity := Z.to_nat (n_elem (ringbuffer m)) in
  let accepted := (length bs `min` (capacity - length (contents m)))%nat in
  ∃ m', run (Put <$> bs) m
        = Some (replicate accepted (PutRet 0)
                  ++ replicate (length bs - accepted) (PutRet (-1)), m') ∧
        contents m' = take capacity (contents m ++ bs).
Proof.
  intros Hinv%initialized_inv capacity accepted.
  destruct (run_refines (Put <$> bs) m Hinv) as (tr & m' & Hrun & _ & _ & Hq).
  rewrite fifo_run_puts_over in Hq by by apply length_contents_le.
  injection Hq as <- Hc. by exists m'.
Qed.

Lemma puts_keep_oldest_witness :
  initialized (P:=ilp32) demo_A ∧
  ∃ m', run (P:=ilp32) (Put <$> [1; 2; 3; 4; 5; 6; 7; 8; 9]) demo_A
        = Some (replicate 7 (PutRet 0) ++ replicate 2 (PutRet (-1)), m') ∧
        contents (P:=ilp32) m' = [65; 1; 2; 3; 4; 5; 6; 7].
Proof.
  split; [exact demo_A_initialized|].
  exact (puts_keep_oldest (P:=ilp32) demo_A [1; 2; 3; 4; 5; 6; 7; 8; 9]
           demo_A_initialized).
Defined.

(** X2. From any initialised state, a series of gets hands over the bytes
    in the buffer, oldest first, each with result 0; the gets after the
    buffer has run empty return -1 and leave the caller's byte as it was.
    The buffer is left with the bytes not yet got. *)
Theorem gets_drain_in_order `{P : Platform} (m : machine) (cs : list Z) :
  initialized m →
  ∃ m', run (Get <$> cs) m
        = Some ((GetRet 0 <$> take (length cs) (contents m))
                  ++ (GetRet (-1) <$> drop (length (contents m)) cs), m') ∧
        contents m' = drop (length cs) (contents m).
Proof.
  intros Hinv%initialized_inv.
  destruct (run_refines (Get <$> cs) m Hinv) as (tr & m' & Hrun & _ & _ & Hq).
  rewrite fifo_run_gets in Hq. injection Hq as <- Hc. by exists m'.
Qed.

Lemma gets_drain_in_order_witness :
  initialized (P:=ilp32) demo_A ∧
  ∃ m', run (P:=ilp32) (Get <$> [7; 8; 9]) demo_A
        = Some ([GetRet 0 65; GetRet (-1) 8; GetRet (-1) 9], m') ∧
        contents (P:=ilp32) m' = [].
Proof.
  split; [exact demo_A_initialized|].
  exact (gets_drain_in_order (P:=ilp32) demo_A [7; 8; 9] demo_A_initialized).
Defined.

(** X3. Round trip of a burst.  If the bytes [bs] fit into the room left,
    putting them all and then getting as many bytes as the buffer then
    holds succeeds throughout and hands over the bytes held before followed
    by [bs], in that order; the buffer is empty afterwards. *)
Theorem burst_round_trip `{P : Platform} (m : machine) (bs cs : list Z) :
  initialized m →
  Z.of_nat (length (contents m) + length bs) ≤ n_elem (ringbuffer m) →
  length cs = (length (contents m) + length bs)%nat →
  ∃ m', run ((Put <$> bs) ++ (Get <$> cs)) m
        = Some (replicate (length bs) (PutRet 0)
                  ++ (GetRet 0 <$> (contents m ++ bs)), m') ∧
        contents m' = [] ∧
        ring_buffer_empty (ringbuffer m') = 1.
Proof.
  intros Hinv%initialized_inv Hroom Hlen.
  destruct (run_refines ((Put <$> bs) ++ (Get <$> cs)) m Hinv)
    as (tr & m' & Hrun & _ & _ & Hq).
  rewrite fifo_run_app, fifo_run_puts, fifo_run_gets in Hq by done.
  rewrite take_ge, drop_ge, drop_ge in Hq by (rewrite ?length_app; lia).
  simpl in Hq. rewrite app_nil_r in Hq. injection Hq as <- Hc.
  exists m'. split_and!; [done|done|]. by apply contents_nil_empty.
Qed.

Lemma burst_round_trip_witness :
  initialized (P:=ilp32) demo_A ∧
  Z.of_nat (length (contents (P:=ilp32) demo_A) + length [66; 67])
    ≤ n_elem (ringbuffer demo_A) ∧
  length [0; 0; 0] = (length (contents (P:=ilp32) demo_A) + length [66; 67])%nat ∧
  ∃ m', run (P:=ilp32) ((Put <$> [66; 67]) ++ (Get <$> [0; 0; 0])) demo_A
        = Some ([PutRet 0; PutRet 0; GetRet 0 65; GetRet 0 66; GetRet 0 67], m') ∧
        contents (P:=ilp32) m' = [] ∧
        ring_buffer_empty (P:=ilp32) (ringbuffer m') = 1.
Proof.
  assert (Z.of_nat (length (contents (P:=ilp32) demo_A) + length [66; 67])
          ≤ n_elem (ringbuffer demo_A)) as Hroom by (vm_compute; discriminate).
  split; [exact demo_A_initialized|]. split; [exact Hroom|].
  split; [reflexivity|].
  exact (burst_round_trip (P:=ilp32) demo_A [66; 67] [0; 0; 0]
           demo_A_initialized Hroom eq_refl).
Defined.

(** ** Memory touched by the buffer *)

Section Memory.
Context {P : Platform}.

Lemma put_memory data m err m' :
  rb_inv m → ring_buffer_put data m = Some (err, m') →
  buf (ringbuffer m') = buf (ringbuffer m) ∧
  n_elem (ringbuffer m') = n_elem (ringbuffer m) ∧
  (∀ a, ¬ (buf (ringbuffer m) ≤ a < buf (ringbuffer m) + n_elem (ringbuffer m)) →
        memory m' !! a = memory m !! a) ∧
  (∀ a, is_Some (memory m' !! a) ↔ is_Some (memory m !! a)).
Proof.
  intros Hinv. destruct (full_cases (ringbuffer m)) as [Hf|Hf].
  - rewrite put_not_full by done. intros [= <- <-]. simpl.
    apply full_false in Hf.
    pose proof (slot_range _ (head (ringbuffer m)) (inv_pow2_of_room m Hinv Hf))
      as Hslot.
    split_and!; [done|done| |].
    + intros a Ha. apply lookup_insert_ne. lia.
    + intros a.
      destruct (decide (buf (ringbuffer m)
                        + slot (ringbuffer m) (head (ringbuffer m)) = a))
        as [<-|Hne].
      * rewrite lookup_insert_eq. split; [|by eauto].
        intros _. by apply (inv_storage m Hinv).
      * by rewrite lookup_insert_ne.
  - rewrite put_full by done. by intros [= <- <-].
Qed.

Lemma get_memory c m err c' m' :
  ring_buffer_get c m = Some (err, c', m') →
  buf (ringbuffer m') = buf (ringbuffer m) ∧
  n_elem (ringbuffer m') = n_elem (ringbuffer m) ∧
  memory m' = memory m.
Proof.
  unfold ring_buffer_get. repeat case_match; try done; by intros [= <- <- <-].
Qed.

Lemma run_memory ops : ∀ m tr m',
  rb_inv m → run ops m = Some (tr, m') →
  buf (ringbuffer m') = buf (ringbuffer m) ∧
  n_elem (ringbuffer m') = n_elem (ringbuffer m) ∧
  (∀ a, ¬ (buf (ringbuffer m) ≤ a < buf (ringbuffer m) + n_elem (ringbuffer m)) →
        memory m' !! a = memory m !! a) ∧
  (∀ a, is_Some (memory m' !! a) ↔ is_Some (memory m !! a)).
Proof.
  induction ops as [|[data|c] ops IH]; intros m tr m' Hinv; simpl.
  - by intros [= _ <-].
  - destruct (ring_buffer_put data m) as [[err m1]|] eqn:Hput; [|done].
    destruct (run ops m1) as [[tr' m2]|] eqn:Hrun; [|done]. intros [= _ <-].
    destruct (put_memory _ _ _ _ Hinv Hput) as (Hb & Hn & Hout & Hdom).
    destruct (IH _ _ _ (put_inv _ _ _ _ Hinv Hput) Hrun)
      as (Hb' & Hn' & Hout' & Hdom').
    split_and!; [congruence|congruence| |].
    + intros a Ha. rewrite Hout', Hout; [done|done|].
      by rewrite Hb, Hn.
    + intros a. by rewrite Hdom', Hdom.
  - destruct (ring_buffer_get c m) as [[[err c'] m1]|] eqn:Hget; [|done].
    destruct (run ops m1) as [[tr' m2]|] eqn:Hrun; [|done]. intros [= _ <-].
    destruct (get_memory _ _ _ _ _ Hget) as (Hb & Hn & Hmem).
    destruct (IH _ _ _ (get_inv _ _ _ _ _ Hinv Hget) Hrun)
      as (Hb' & Hn' & Hout' & Hdom').
    split_and!; [congruence|congruence| |].
    + intros a Ha. rewrite Hout', Hmem; [done|].
      by rewrite Hb, Hn.
    + intros a. by rewrite Hdom', Hmem.
Qed.

End Memory.

(** X4. Any sequence of puts and gets on an initialised buffer runs to its
    end without an access outside a live object, leaves the buffer
    initialised with the same [buf] and [n_elem], and changes no byte of
    memory outside the [n_elem] bytes from [buf] on; no address becomes live
    or dead. *)
Theorem run_stays_in_storage `{P : Platform} (m : machine) (ops : list op) :
  initialized m →
  ∃ tr m', run ops m = Some (tr, m') ∧
    initialized m' ∧
    buf (ringbuffer m') = buf (ringbuffer m) ∧
    n_elem (ringbuffer m') = n_elem (ringbuffer m) ∧
    (∀ a, ¬ (buf (ringbuffer m) ≤ a < buf (ringbuffer m) + n_elem (ringbuffer m)) →
          memory m' !! a = memory m !! a) ∧
    (∀ a, is_Some (memory m' !! a) ↔ is_Some (memory m !! a)).
Proof.
  intros Hinit. pose proof (initialized_inv m Hinit) as Hinv.
  destruct (run_refines ops m Hinv) as (tr & m' & Hrun & _).
  exists tr, m'. split; [done|].
  split; [by eapply run_initialized|]. by apply (run_memory ops m tr).
Qed.

Lemma run_stays_in_storage_witness :
  initialized (P:=ilp32) demo_A ∧
  ∃ tr m', run (P:=ilp32) [Put 66; Get 0; Get 0; Get 0; Put 67] demo_A
           = Some (tr, m') ∧
    initialized (P:=ilp32) m' ∧
    buf (ringbuffer m') = 4096 ∧
    n_elem (ringbuffer m') = 8 ∧
    (∀ a, ¬ (4096 ≤ a < 4096 + 8) → memory m' !! a = memory demo_A !! a) ∧
    (∀ a, is_Some (memory m' !! a) ↔ is_Some (memory demo_A !! a)).
Proof.
  split; [exact demo_A_initialized|].
  exact (run_stays_in_storage (P:=ilp32) demo_A
           [Put 66; Get 0; Get 0; Get 0; Put 67] demo_A_initialized).
Defined.

(** X5. A buffer whose [n_elem] is 0 and whose cursors are equal, as the
    static [ringbuffer] is before [ring_buffer_init] has run, refuses every
    put and every get with -1: the machine stays as it is, a get leaves the
    caller's byte alone, and no memory is read or written, whatever [buf]
    is (it is [NULL] at program start) and whatever memory there is. *)
Theorem unconfigured_buffer_refuses `{P : Platform} (m : machine) (ops : list op) :
  n_elem (ringbuffer m) = 0 →
  head (ringbuffer m) = tail (ringbuffer m) →
  run ops m = Some (refused <$> ops, m).
Proof.
  intros Hn Hht.
  assert (sub_cursors (ringbuffer m) = 0) as Hs.
  { unfold sub_cursors. rewrite Hht, Z.sub_diag. apply uint_0. }
  assert (ring_buffer_full (ringbuffer m) = 1) as Hf
    by (apply full_true; congruence).
  assert (ring_buffer_empty (ringbuffer m) = 1) as He by by apply empty_true.
  induction ops as [|[data|c] ops IH]; simpl.
  - done.
  - rewrite put_full by done. by rewrite IH.
  - rewrite get_empty by done. by rewrite IH.
Qed.

Lemma unconfigured_buffer_refuses_witness :
  n_elem (ringbuffer (startup ∅)) = 0 ∧
  head (ringbuffer (startup ∅)) = tail (ringbuffer (startup ∅)) ∧
  run (P:=ilp32) [Put 65; Get 7; Put 66] (startup ∅)
  = Some ([PutRet (-1); GetRet (-1) 7; PutRet (-1)], startup ∅).
Proof.
  split; [reflexivity|]. split; [reflexivity|].
  exact (unconfigured_buffer_refuses (P:=ilp32) (startup ∅)
           [Put 65; Get 7; Put 66] eq_refl eq_refl).
Defined.

(** X6. [ring_buffer_init] returns 0 exactly when the attribute pointer is
    not null, its [buffer] is not null and its [n_elem] is zero or a power
    of two.  It then sets both cursors to 0, takes over [n_elem] and
    [buffer] and leaves the memory alone, so whatever an earlier buffer held
    is gone; otherwise it returns -1 and changes nothing. *)
Theorem init_success_condition `{P : Platform}
    (attr : option ringbuffer_attribute) (m : machine) :
  (∀ a, attr = Some a → is_uint (attr_n_elem a)) →
  ((ring_buffer_init attr m).1 = 0 ↔
     ∃ a, attr = Some a ∧ buffer a ≠ NULL ∧
          (attr_n_elem a = 0 ∨ pow2 (attr_n_elem a)))
  ∧ (∀ a, attr = Some a → (ring_buffer_init attr m).1 = 0 →
       (ring_buffer_init attr m).2
       = {| ringbuffer := {| n_elem := attr_n_elem a; buf := buffer a;
                             head := 0; tail := 0 |};
            memory := memory m |}
       ∧ contents (ring_buffer_init attr m).2 = [])
  ∧ ((ring_buffer_init attr m).1 ≠ 0 → ring_buffer_init attr m = (-1, m)).
Proof.
  intros Hu. split_and!.
  - split.
    + destruct (init_result attr m) as [->|(a & -> & Hb & Hl & ->)]; [done|].
      intros _. exists a. split_and!; [done|done|]. apply pow2_test; auto.
    + intros (a & -> & Hb & Hn). simpl.
      destruct (Z.eqb_spec (buffer a) NULL); [done|].
      apply pow2_test in Hn; [|auto]. by rewrite Hn.
  - intros a -> H0.
    destruct (init_result (Some a) m) as [Hr|(a' & [= <-] & _ & _ & Hr)];
      rewrite Hr in *; [done|]. split; [done|].
    apply contents_empty, empty_true. unfold sub_cursors. simpl. apply uint_0.
  - intros Hne.
    destruct (init_result attr m) as [Hr|(a & _ & _ & _ & Hr)];
      rewrite Hr in *; done.
Qed.

Lemma init_success_condition_witness :
  (∀ a, Some demo_attr = Some a → is_uint (P:=ilp32) (attr_n_elem a)) ∧
  ((ring_buffer_init (P:=ilp32) (Some demo_attr) demo_A).1 = 0 ↔
     ∃ a, Some demo_attr = Some a ∧ buffer a ≠ NULL ∧
          (attr_n_elem a = 0 ∨ pow2 (P:=ilp32) (attr_n_elem a))) ∧
  (ring_buffer_init (P:=ilp32) (Some demo_attr) demo_A).2
  = {| ringbuffer := {| n_elem := 8; buf := 4096; head := 0; tail := 0 |};
       memory := memory demo_A |} ∧
  contents (P:=ilp32) (ring_buffer_init (P:=ilp32) (Some demo_attr) demo_A).2 = [].
Proof.
  assert (∀ a, Some demo_attr = Some a → is_uint (P:=ilp32) (attr_n_elem a))
    as Hu by (intros a [= <-]; exact demo_attr_uint).
  destruct (init_success_condition (P:=ilp32) (Some demo_attr) demo_A Hu)
    as (Hiff & Heffect & _).
  split; [exact Hu|]. split; [exact Hiff|].
  exact (Heffect demo_attr eq_refl eq_refl).
Defined.

(** ** The UART side *)

Lemma take_take_app {A} (c : nat) (l r : list A) :
  take c (take c l ++ r) = take c (l ++ r).
Proof.
  destruct (decide (length l ≤ c)%nat) as [Hle|Hgt].
  - by rewrite (take_ge l) by done.
  - rewrite !take_app_le by (rewrite ?length_take; lia).
    rewrite take_take. f_equal. lia.
Qed.

Section UartProofs.
Context {P : Platform}.

(** One put, seen from the contents of the buffer. *)
Lemma put_step data m :
  initialized m →
  ∃ err m', ring_buffer_put data m = Some (err, m') ∧
    initialized m' ∧
    n_elem (ringbuffer m') = n_elem (ringbuffer m) ∧
    buf (ringbuffer m') = buf (ringbuffer m) ∧
    contents m' = take (Z.to_nat (n_elem (ringbuffer m))) (contents m ++ [data]) ∧
    (ring_buffer_full (ringbuffer m) = 0 → contents m' = contents m ++ [data]) ∧
    (ring_buffer_full (ringbuffer m) = 1 → m' = m).
Proof.
  intros Hinit. pose proof (initialized_inv m Hinit) as Hinv.
  pose proof (length_contents m) as Hlen.
  pose proof (inv_fill m Hinv) as Hfill.
  destruct (full_cases (ringbuffer m)) as [Hf|Hf].
  - pose proof (put_not_full data m Hinv Hf) as Hput.
    pose proof (contents_put _ _ _ Hinv Hput) as Hc.
    eexists 0, _. split; [exact Hput|].
    apply full_false in Hf.
    split_and!; [by eapply initialized_put|done|done| |done|].
    + rewrite Hc, take_ge; [done|]. rewrite length_app. simpl. lia.
    + intros Hf'. apply full_true in Hf'. done.
  - exists (-1), m. rewrite put_full by done. apply full_true in Hf.
    split_and!; [done|done|done|done| |by intros ?%full_false|done].
    rewrite take_app_le, take_ge by lia. done.
Qed.

(** One get through [uart_getchar], seen from the contents of the buffer. *)
Lemma getchar_step m :
  initialized m →
  ∃ m', uart_getchar m
        = Some (match contents m with [] => -1 | x :: _ => char_val x end, m') ∧
    initialized m' ∧
    n_elem (ringbuffer m') = n_elem (ringbuffer m) ∧
    buf (ringbuffer m') = buf (ringbuffer m) ∧
    contents m' = drop 1 (contents m) ∧
    (contents m = [] → m' = m).
Proof.
  intros Hinit. pose proof (initialized_inv m Hinit) as Hinv.
  unfold uart_getchar.
  destruct (empty_cases (ringbuffer m)) as [He|He].
  - destruct (get_not_empty (char_repr (-1)) m Hinv He) as (x & _ & Hget).
    pose proof (contents_get _ _ _ _ Hinv Hget) as Hc.
    destruct (get_memory _ _ _ _ _ Hget) as (Hb & Hn & _).
    rewrite Hget, Hc. simpl. eexists. split; [done|].
    split_and!; [by eapply initialized_get|done|done|by rewrite drop_0|done].
  - pose proof (contents_empty m He) as Hc.
    rewrite get_empty, Hc by done. simpl. exists m. by rewrite Hc.
Qed.

Lemma await_ready fuel b :
  WriteInterruptControlFlag b ≠ 0 → (0 < fuel)%nat →
  await_write_ready fuel b = Some b.
Proof.
  intros Hflag Hfuel. destruct fuel as [|fuel]; [lia|]. simpl.
  by destruct (Z.eqb_spec (WriteInterruptControlFlag b) 0).
Qed.

Lemma await_never fuel b :
  WriteInterruptControlFlag b = 0 → await_write_ready fuel b = None.
Proof.
  intros Hflag. induction fuel as [|fuel IH]; [done|]. simpl.
  by rewrite Hflag.
Qed.

Lemma char_val_mod b : char_val b mod 256 = b mod 256.
Proof.
  unfold char_val. destruct CHAR_SIGNED; [|done].
  destruct (b <? 128); [done|].
  replace (b - 256) with (b + (-1) * 256) by lia. apply Z_mod_plus_full.
Qed.

Lemma char_repr_to_char c : char_repr (to_char c) = c mod 256.
Proof.
  unfold char_repr, to_char. rewrite char_val_mod. apply Z.mod_mod. lia.
Qed.

Lemma char_val_succ b : (char_val b + 1) mod 256 = (b + 1) mod 256.
Proof.
  rewrite <- Zplus_mod_idemp_l, char_val_mod. apply Zplus_mod_idemp_l.
Qed.

Lemma putchar_ready fuel c b :
  WriteInterruptControlFlag b ≠ 0 → (0 < fuel)%nat →
  uart_putchar fuel c b
  = Some (0, with_write_flag 0 (store_UARTOUT (c mod 256) b)).
Proof.
  intros Hflag Hfuel. unfold uart_putchar.
  by rewrite await_ready, char_repr_to_char.
Qed.

(** One service of the receive interrupt with the flag raised. *)
Lemma interrupt_step b :
  initialized (core b) → ReadInterruptControlFlag b ≠ 0 →
  ∃ m', UART_READ_interrupt b = Some (with_core m' (with_read_flag 0 b)) ∧
    initialized m' ∧
    n_elem (ringbuffer m') = n_elem (ringbuffer (core b)) ∧
    buf (ringbuffer m') = buf (ringbuffer (core b)) ∧
    contents m'
    = take (Z.to_nat (n_elem (ringbuffer (core b))))
        (contents (core b) ++ [UARTIN b]) ∧
    (ring_buffer_full (ringbuffer (core b)) = 0 →
       contents m' = contents (core b) ++ [UARTIN b]) ∧
    (ring_buffer_full (ringbuffer (core b)) = 1 → m' = core b).
Proof.
  intros Hinit Hflag. unfold UART_READ_interrupt.
  destruct (Z.eqb_spec (ReadInterruptControlFlag b) 0); [done|].
  destruct (put_step (UARTIN b) (core b) Hinit) as (err & m' & Hput & Hrest).
  simpl. rewrite Hput. by exists m'.
Qed.

(** The first loop of [main], from any board with an initialised buffer. *)
Lemma receive_loop_correct n : ∀ b,
  initialized (core b) →
  ∃ b', receive_loop n b = Some b' ∧
    initialized (core b') ∧
    n_elem (ringbuffer (core b')) = n_elem (ringbuffer (core b)) ∧
    buf (ringbuffer (core b')) = buf (ringbuffer (core b)) ∧
    contents (core b')
    = take (Z.to_nat (n_elem (ringbuffer (core b))))
        (contents (core b)
           ++ ((λ i, (UARTIN b + i) mod 256) <$> seqZ 1 (Z.of_nat n))) ∧
    transmitted b' = transmitted b ∧
    UARTOUT b' = UARTOUT b ∧
    WriteInterruptControlFlag b' = WriteInterruptControlFlag b ∧
    BAUD0 b' = BAUD0 b ∧ BAUD1 b' = BAUD1 b ∧
    ((0 < n)%nat →
       UARTIN b' = (UARTIN b + Z.of_nat n) mod 256 ∧
       ReadInterruptControlFlag b' = 0).
Proof.
  induction n as [|n IH]; intros b Hinit.
  - exists b. simpl. rewrite app_nil_r.
    rewrite take_ge by (pose proof (length_contents_le _ (initialized_inv _ Hinit)); lia).
    split_and!; try done. lia.
  - cbn [receive_loop].
    set (u1 := (UARTIN b + 1) mod 256).
    set (b1 := with_read_flag 1 (with_UARTIN u1 b)).
    destruct (interrupt_step b1 Hinit ltac:(done))
      as (m' & Hint & Hinit' & Hn & Hb & Hc & _).
    rewrite Hint.
    destruct (IH (with_core m' (with_read_flag 0 b1)) Hinit')
      as (b' & Hloop & Hinit'' & Hn' & Hb' & Hc' & Ht & Ho & Hw & H0 & H1 & Hu).
    exists b'. split; [done|]. simpl in *.
    split_and!; try congruence.
    + rewrite Hc', Hn, Hc, take_take_app, <- app_assoc. do 2 f_equal.
      rewrite (seqZ_cons 1 (Z.of_nat (S n))) by lia.
      replace (Z.pred (Z.of_nat (S n))) with (Z.of_nat n) by lia.
      replace (Z.succ 1) with (1 + 1) by lia.
      rewrite <- fmap_add_seqZ, fmap_cons, <- list_fmap_compose. simpl.
      f_equal. apply list_fmap_ext. intros _ i _. simpl. unfold u1.
      rewrite Zplus_mod_idemp_l. f_equal. lia.
    + intros _. destruct n as [|n].
      * simpl in Hloop. injection Hloop as <-. simpl. split; [|done].
        unfold u1. f_equal.
      * destruct (Hu ltac:(lia)) as [-> ->]. split; [|done].
        unfold u1. rewrite Zplus_mod_idemp_l. f_equal. lia.
Qed.

(** The second loop of [main], from any board with an initialised buffer. *)
Lemma echo_loop_correct fuel n : ∀ b,
  initialized (core b) → (0 < fuel)%nat →
  ∃ b', echo_loop fuel n b = Some b' ∧
    initialized (core b') ∧
    n_elem (ringbuffer (core b')) = n_elem (ringbuffer (core b)) ∧
    buf (ringbuffer (core b')) = buf (ringbuffer (core b)) ∧
    contents (core b') = drop n (contents (core b)) ∧
    transmitted b'
    = transmitted b
        ++ ((λ x, (x + 1) mod 256) <$> take n (contents (core b)))
        ++ replicate (n - length (contents (core b))) 0 ∧
    UARTIN b' = UARTIN b ∧
    ReadInterruptControlFlag b' = ReadInterruptControlFlag b ∧
    BAUD0 b' = BAUD0 b ∧ BAUD1 b' = BAUD1 b ∧
    ((0 < n)%nat → WriteInterruptControlFlag b' = 0).
Proof.
  induction n as [|n IH]; intros b Hinit Hfuel.
  - exists b. simpl. rewrite drop_0, app_nil_r. split_and!; try done. lia.
  - cbn [echo_loop].
    destruct (getchar_step (core b) Hinit) as (m' & Hg & Hinit' & Hn & Hb & Hc & _).
    rewrite Hg. cbv zeta.
    set (v := match contents (core b) with [] => -1 | x :: _ => char_val x end).
    rewrite putchar_ready by done.
    set (b2 := with_write_flag 0 _).
    destruct (IH b2 Hinit' Hfuel)
      as (b' & Hloop & Hinit'' & Hn' & Hb' & Hc' & Ht & Hu & Hr & H0 & H1 & Hw).
    exists b'. split; [done|]. simpl in *.
    split_and!; try congruence.
    + rewrite Hc', Hc. by rewrite drop_drop.
    + rewrite Ht, Hc, <- app_assoc. f_equal. unfold v.
      destruct (contents (core b)) as [|x q]; simpl.
      * by rewrite take_nil, Nat.sub_0_r.
      * by rewrite char_val_succ, drop_0.
    + intros _. destruct n as [|n].
      * simpl in Hloop. by injection Hloop as <-.
      * apply Hw. lia.
Qed.

End UartProofs.

(** X7. [UART_READ_interrupt] with the receive flag at 0 does nothing at
    all.  With the flag raised and an initialised buffer it clears the flag
    and offers the byte of [UARTIN] to the buffer: if the buffer is not full
    the byte becomes its newest element, if it is full the byte is dropped
    and the buffer is as before.  No other register changes and the buffer
    stays initialised. *)
Theorem UART_READ_interrupt_spec `{P : Platform} (b : board) :
  initialized (core b) →
  (ReadInterruptControlFlag b = 0 → UART_READ_interrupt b = Some b) ∧
  (ReadInterruptControlFlag b ≠ 0 →
     ∃ m', UART_READ_interrupt b = Some (with_core m' (with_read_flag 0 b)) ∧
       initialized m' ∧
       (ring_buffer_full (ringbuffer (core b)) = 0 →
          contents m' = contents (core b) ++ [UARTIN b]) ∧
       (ring_buffer_full (ringbuffer (core b)) = 1 → m' = core b)).
Proof.
  intros Hinit. split.
  - intros Hflag. unfold UART_READ_interrupt. by rewrite Hflag.
  - intros Hflag.
    destruct (interrupt_step b Hinit Hflag)
      as (m' & Hint & Hinit' & _ & _ & _ & Hroom & Hfull).
    by exists m'.
Qed.

Lemma UART_READ_interrupt_spec_witness :
  (initialized (P:=ilp32) (core demo_board) ∧
   ReadInterruptControlFlag demo_board = 0 ∧
   UART_READ_interrupt (P:=ilp32) demo_board = Some demo_board)
  ∧ (ReadInterruptControlFlag (with_read_flag 1 demo_board) ≠ 0 ∧
     ∃ m', UART_READ_interrupt (P:=ilp32) (with_read_flag 1 demo_board)
           = Some (with_core m' (with_read_flag 0 (with_read_flag 1 demo_board))) ∧
       initialized (P:=ilp32) m' ∧
       (ring_buffer_full (P:=ilp32) (ringbuffer demo_ready) = 0 →
          contents (P:=ilp32) m' = contents (P:=ilp32) demo_ready ++ [65]) ∧
       (ring_buffer_full (P:=ilp32) (ringbuffer demo_ready) = 1 →
          m' = demo_ready)).
Proof.
  split.
  - split; [exact demo_ready_initialized|]. split; [reflexivity|].
    exact (proj1 (UART_READ_interrupt_spec (P:=ilp32) demo_board
                    demo_ready_initialized) eq_refl).
  - assert (ReadInterruptControlFlag (with_read_flag 1 demo_board) ≠ 0) as Hflag
      by discriminate.
    split; [exact Hflag|].
    exact (proj2 (UART_READ_interrupt_spec (P:=ilp32)
                    (with_read_flag 1 demo_board) demo_ready_initialized) Hflag).
Defined.

(** X8. On an initialised buffer [uart_getchar] returns -1 and changes
    nothing when the buffer holds no byte; otherwise it removes the oldest
    byte [x] and returns it read as a [char].  That value is [x] itself for
    [x] below 128 and is always congruent to [x] modulo 256, so converting a
    result to [unsigned char] gives the byte back. *)
Theorem uart_getchar_dequeues `{P : Platform} (m : machine) :
  initialized m →
  (contents m = [] → uart_getchar m = Some (-1, m)) ∧
  (∀ x q, contents m = x :: q →
     ∃ m', uart_getchar m = Some (char_val x, m') ∧
       initialized m' ∧
       contents m' = q ∧
       char_val x mod 256 = x mod 256 ∧
       (0 ≤ x < 128 → char_val x = x)).
Proof.
  intros Hinit.
  destruct (getchar_step m Hinit) as (m' & Hg & Hinit' & _ & _ & Hc & Hsame).
  split.
  - intros Hnil. rewrite Hg, Hnil. by rewrite (Hsame Hnil).
  - intros x q Hq. rewrite Hq in Hg, Hc. exists m'.
    split_and!; [done|done|by rewrite Hc|apply char_val_mod|].
    intros Hx. unfold char_val. destruct CHAR_SIGNED; [|done].
    by destruct (Z.ltb_spec x 128); [|lia].
Qed.

Lemma uart_getchar_dequeues_witness :
  (initialized (P:=ilp32) demo_ready ∧ contents (P:=ilp32) demo_ready = [] ∧
   uart_getchar (P:=ilp32) demo_ready = Some (-1, demo_ready))
  ∧ (initialized (P:=ilp32) demo_A ∧ contents (P:=ilp32) demo_A = [65] ∧
     ∃ m', uart_getchar (P:=ilp32) demo_A = Some (char_val (P:=ilp32) 65, m') ∧
       initialized (P:=ilp32) m' ∧
       contents (P:=ilp32) m' = [] ∧
       char_val (P:=ilp32) 65 mod 256 = 65 mod 256 ∧
       (0 ≤ 65 < 128 → char_val (P:=ilp32) 65 = 65)).
Proof.
  split.
  - split; [exact demo_ready_initialized|]. split; [reflexivity|].
    exact (proj1 (uart_getchar_dequeues (P:=ilp32) demo_ready
                    demo_ready_initialized) eq_refl).
  - split; [exact demo_A_initialized|]. split; [reflexivity|].
    exact (proj2 (uart_getchar_dequeues (P:=ilp32) demo_A demo_A_initialized)
             65 [] eq_refl).
Defined.

(** X9. When the write flag is raised, [uart_putchar] returns 0 at the
    first read of the flag: it stores the low eight bits of its argument in
    [UARTOUT], whether [char] is signed or not, clears the write flag and
    touches neither the ring buffer nor any other register. *)
Theorem uart_putchar_sends `{P : Platform} (fuel : nat) (c : Z) (b : board) :
  WriteInterruptControlFlag b ≠ 0 → (0 < fuel)%nat →
  uart_putchar fuel c b
  = Some (0, {| core := core b; attr := attr b;
                ReadInterruptControlFlag := ReadInterruptControlFlag b;
                WriteInterruptControlFlag := 0;
                UARTIN := UARTIN b; UARTOUT := c mod 256;
                BAUD0 := BAUD0 b; BAUD1 := BAUD1 b;
                transmitted := transmitted b ++ [c mod 256] |}).
Proof. intros Hflag Hfuel. by rewrite putchar_ready. Qed.

Lemma uart_putchar_sends_witness :
  WriteInterruptControlFlag demo_board ≠ 0 ∧ (0 < 1)%nat ∧
  uart_putchar (P:=ilp32) 1 (-1) demo_board
  = Some (0, {| core := demo_ready; attr := demo_attr;
                ReadInterruptControlFlag := 0;
                WriteInterruptControlFlag := 0;
                UARTIN := 65; UARTOUT := 255;
                BAUD0 := BAUD_L; BAUD1 := BAUD_H;
                transmitted := [255] |}).
Proof.
  assert (WriteInterruptControlFlag demo_board ≠ 0) as Hflag by discriminate.
  split; [exact Hflag|]. split; [lia|].
  exact (uart_putchar_sends (P:=ilp32) 1 (-1) demo_board Hflag (le_n 1)).
Defined.

(** X10. When the write flag reads 0, [uart_putchar] does not return
    however many times it reads the flag, nothing else being there to raise
    it.  As a call that returns has cleared the flag, a second call made
    without the flag being raised in between never returns. *)
Theorem uart_putchar_waits `{P : Platform} (b : board) :
  (WriteInterruptControlFlag b = 0 →
     ∀ fuel c, uart_putchar fuel c b = None)
  ∧ (∀ fuel1 c1 r b', uart_putchar fuel1 c1 b = Some (r, b') →
       ∀ fuel2 c2, uart_putchar fuel2 c2 b' = None).
Proof.
  split.
  - intros Hflag fuel c. unfold uart_putchar. by rewrite await_never.
  - intros fuel1 c1 r b'. unfold uart_putchar.
    destruct (await_write_ready fuel1 b) as [b1|]; [|done].
    intros [= _ <-] fuel2 c2. by rewrite await_never.
Qed.

Lemma uart_putchar_waits_witness :
  (WriteInterruptControlFlag (power_on ∅) = 0 ∧
   uart_putchar (P:=ilp32) 1000 65 (power_on ∅) = None)
  ∧ (∃ b', uart_putchar (P:=ilp32) 1 65 demo_board = Some (0, b') ∧
           uart_putchar (P:=ilp32) 1000 66 b' = None).
Proof.
  destruct (uart_putchar_waits (P:=ilp32) (power_on ∅)) as [Hnever _].
  destruct (uart_putchar_waits (P:=ilp32) demo_board) as [_ Hsecond].
  split.
  - split; [reflexivity|]. exact (Hnever eq_refl 1000%nat 65).
  - eexists. split; [reflexivity|].
    exact (Hsecond 1%nat 65 0 _ eq_refl 1000%nat 66).
Defined.

(** X11. The first loop of [main], run for [n] rounds on any board whose
    buffer is initialised, completes.  Round [i] raises the receive flag
    over the byte [UARTIN + i] modulo 256, and the buffer ends with what it
    held followed by these bytes in order, cut at its capacity: the bytes
    that arrive while it is full are lost.  The transmit side is untouched. *)
Theorem receive_loop_buffers `{P : Platform} (n : nat) (b : board) :
  initialized (core b) →
  ∃ b', receive_loop n b = Some b' ∧
    initialized (core b') ∧
    contents (core b')
    = take (Z.to_nat (n_elem (ringbuffer (core b))))
        (contents (core b)
           ++ ((λ i, (UARTIN b + i) mod 256) <$> seqZ 1 (Z.of_nat n))) ∧
    transmitted b' = transmitted b ∧
    UARTOUT b' = UARTOUT b ∧
    WriteInterruptControlFlag b' = WriteInterruptControlFlag b ∧
    ((0 < n)%nat →
       UARTIN b' = (UARTIN b + Z.of_nat n) mod 256 ∧
       ReadInterruptControlFlag b' = 0).
Proof.
  intros Hinit.
  destruct (receive_loop_correct n b Hinit)
    as (b' & Hloop & Hinit' & _ & _ & Hc & Ht & Ho & Hw & _ & _ & Hu).
  by exists b'.
Qed.

Lemma receive_loop_buffers_witness :
  initialized (P:=ilp32) (core demo_board) ∧
  ∃ b', receive_loop (P:=ilp32) 10 demo_board = Some b' ∧
    initialized (P:=ilp32) (core b') ∧
    contents (P:=ilp32) (core b') = [66; 67; 68; 69; 70; 71; 72; 73] ∧
    transmitted b' = [] ∧
    UARTOUT b' = 0 ∧
    WriteInterruptControlFlag b' = 1 ∧
    ((0 < 10)%nat → UARTIN b' = 75 ∧ ReadInterruptControlFlag b' = 0).
Proof.
  split; [exact demo_ready_initialized|].
  exact (receive_loop_buffers (P:=ilp32) 10 demo_board demo_ready_initialized).
Defined.

(** X12. The second loop of [main], run for [n] rounds on any board whose
    buffer is initialised, completes, given that the wait of [uart_putchar]
    may read the flag at least once.  It takes the [n] oldest bytes out of
    the buffer and stores each, plus one modulo 256, in [UARTOUT], in
    order; a round that finds the buffer empty stores 0, as [uart_getchar]
    has returned -1.  The receive side is untouched. *)
Theorem echo_loop_transmits `{P : Platform} (fuel n : nat) (b : board) :
  initialized (core b) → (0 < fuel)%nat →
  ∃ b', echo_loop fuel n b = Some b' ∧
    initialized (core b') ∧
    contents (core b') = drop n (contents (core b)) ∧
    transmitted b'
    = transmitted b
        ++ ((λ x, (x + 1) mod 256) <$> take n (contents (core b)))
        ++ replicate (n - length (contents (core b))) 0 ∧
    UARTIN b' = UARTIN b ∧
    ReadInterruptControlFlag b' = ReadInterruptControlFlag b ∧
    ((0 < n)%nat → WriteInterruptControlFlag b' = 0).
Proof.
  intros Hinit Hfuel.
  destruct (echo_loop_correct fuel n b Hinit Hfuel)
    as (b' & Hloop & Hinit' & _ & _ & Hc & Ht & Hu & Hr & _ & _ & Hw).
  by exists b'.
Qed.

Lemma echo_loop_transmits_witness :
  initialized (P:=ilp32) (core (with_core demo_FF demo_board)) ∧ (0 < 1)%nat ∧
  ∃ b', echo_loop (P:=ilp32) 1 3 (with_core demo_FF demo_board) = Some b' ∧
    initialized (P:=ilp32) (core b') ∧
    contents (P:=ilp32) (core b') = [] ∧
    transmitted b' = [0; 0; 0] ∧
    UARTIN b' = 65 ∧
    ReadInterruptControlFlag b' = 0 ∧
    ((0 < 3)%nat → WriteInterruptControlFlag b' = 0).
Proof.
  assert (initialized (P:=ilp32) demo_FF) as Hinit.
  { apply (initialized_put 255 demo_ready 0 demo_FF demo_ready_initialized).
    reflexivity. }
  split; [exact Hinit|]. split; [lia|].
  exact (echo_loop_transmits (P:=ilp32) 1 3 (with_core demo_FF demo_board)
           Hinit (le_n 1)).
Defined.


